(** * CityLink: reachability over a dense adjacency matrix

    A shallow embedding of [cityLink.c]: the depth-first path search
    [findPath] and the iterative closure [calculateTransitiveClosure],
    with the properties of the two engines proved over the embedding.

    Conventions.  Matrix cells and visited flags are C [int]s and are
    modelled as [Z]; they are only ever compared with 0 and 1 and written
    with 0 or 1.  Vertex indices are loop counters or user-supplied cities
    and are modelled as [nat].  Arrays are lists read with [!!] and written
    with [<[i:=x]>]. *)

From Stdlib Require Import ZArith Lia.
From stdpp Require Import base tactics numbers option list relations.

Open Scope Z_scope.
Open Scope nat_scope.

(** ** Matrix Store *)

Abbreviation matrix := (list (list Z)).

(** [createMatrix]: [N] rows obtained with [calloc], hence all zero. *)
Definition createMatrix (n : nat) : matrix := replicate n (replicate n 0%Z).

(** A read [m[i][j]]; [None] when an index leaves the allocated block. *)
Definition cell (m : matrix) (i j : nat) : option Z := m !! i ≫= (.!! j).

(** The same read inside loops that keep [i] and [j] below [N]. *)
Definition mget (m : matrix) (i j : nat) : Z := default 0%Z (cell m i j).

(** The write [m[i][j] = x]. *)
Definition mset (m : matrix) (i j : nat) (x : Z) : matrix :=
  alter (<[j:=x]>) i m.

(** An [n] by [n] block, as [createMatrix] and [readAdjacencyMatrix] build. *)
Definition square (n : nat) (m : matrix) : Prop :=
  length m = n ∧ Forall (λ row, length row = n) m.

(** The input format: every cell is 0 or 1. *)
Definition binary (m : matrix) : Prop :=
  Forall (Forall (λ x, x = 0%Z ∨ x = 1%Z)) m.

(** [for (i = 0; i < n; i++) body] over a state of type [S]. *)
Definition for_range {S : Type} (n : nat) (body : nat → S → S) (s : S) : S :=
  foldl (λ s i, body i s) s (seq 0 n).

(** ** Path Finder *)

(** What the search prints. *)
Inductive line : Type :=
  | YesPath (p : list nat)   (* "Yes Path Exists!\n" then v0=>v1=>...=>vk *)
  | NoPath.                  (* "No Path Exists!\n" *)

(** The globals [N] and [cityMatrix], the two heap arrays handed to
    [findPath], and standard output. *)
Record world : Type := World {
  N : nat;
  cityMatrix : matrix;
  visited : list Z;
  path : list nat;
  stdout : list line
}.

(** [visited[i] = x]; no result when [i] is outside the array. *)
Definition store_visited (i : nat) (x : Z) (st : world) : option world :=
  if decide (i < length (visited st)) then
    Some (World (N st) (cityMatrix st) (<[i:=x]> (visited st)) (path st) (stdout st))
  else None.

(** [path[k] = v]; no result when [k] is outside the array. *)
Definition store_path (k v : nat) (st : world) : option world :=
  if decide (k < length (path st)) then
    Some (World (N st) (cityMatrix st) (visited st) (<[k:=v]> (path st)) (stdout st))
  else None.

Definition print (l : line) (st : world) : world :=
  World (N st) (cityMatrix st) (visited st) (path st) (stdout st ++ [l]).

(** The loop [for (i = 0; i < N; i++)] of [findPath], running over the
    indices still to be tried.  [call] is the recursive invocation
    [findPath(i, destination, visited, path, pathIndex)].  The result is
    [true] when some call returned non-zero (the [return 1] inside the
    loop) and [false] when the loop ran to its end. *)
Fixpoint scan (call : nat → world → option (Z * world)) (source : nat)
    (todo : list nat) (st : world) : option (bool * world) :=
  match todo with
  | [] => Some (false, st)
  | i :: todo =>
    vi ← visited st !! i;
    if decide (vi = 0%Z) then
      e ← cell (cityMatrix st) source i;
      if decide (e ≠ 0%Z) then
        '(r, st') ← call i st;
        if decide (r ≠ 0%Z) then Some (true, st')
        else scan call source todo st'
      else scan call source todo st
    else scan call source todo st
  end.

(** [findPath].  [fuel] bounds the depth of the recursion; [None] stands
    for an access outside an array or for exhausted fuel. *)
Fixpoint findPath (fuel : nat) (source destination pathIndex : nat)
    (st : world) : option (Z * world) :=
  match fuel with
  | 0 => None
  | S fuel =>
    st ← store_visited source 1 st;
    st ← store_path pathIndex source st;
    let pathIndex := S pathIndex in
    if decide (source = destination) then
      Some (1%Z, print (YesPath (take pathIndex (path st))) st)
    else
      '(found, st) ← scan (λ i, findPath fuel i destination pathIndex) source
                          (seq 0 (N st)) st;
      if found : bool then Some (1%Z, st)
      else st ← store_visited source 0 st; Some (0%Z, st)
  end.

(** [implementR] after the matrix is loaded: [visited] comes from [calloc],
    [path] from [malloc] (its contents [buf] are whatever the heap held),
    and the search starts at [pathIndex = 0]. *)
Definition search_start (n : nat) (m : matrix) (buf : list nat) : world :=
  World n m (replicate n 0%Z) buf [].

Definition implementR (fuel : nat) (n : nat) (m : matrix) (buf : list nat)
    (sourceCity destinationCity : nat) : option world :=
  '(r, st) ← findPath fuel sourceCity destinationCity 0 (search_start n m buf);
  if decide (r = 0%Z) then Some (print NoPath st) else Some st.

(** ** Closure Engine *)

(** The locals of [calculateTransitiveClosure].  [emitted] is the sequence
    of lines "u -> w" written so far, to [outputFile] or to standard
    output according to [printToFile]; the flag only selects the sink. *)
Record closure : Type := Closure {
  transitiveClosure : matrix;
  previous : matrix;
  repeat : Z;
  emitted : list (nat * nat)
}.

(** The copy loops [dst[i][j] = src[i][j]] (lines 336-340 and 362-366). *)
Definition copy_matrix (n : nat) (src dst : matrix) : matrix :=
  for_range n (λ i dst,
    for_range n (λ j dst, mset dst i j (mget src i j)) dst) dst.

(** The first printing loop (lines 344-353). *)
Definition emit_initial (n : nat) (tc : matrix) (out : list (nat * nat))
    : list (nat * nat) :=
  for_range n (λ u out,
    for_range n (λ w out,
      if decide (mget tc u w = 1%Z) then out ++ [(u, w)] else out) out) out.

(** The body of the innermost loop (lines 372-382). *)
Definition relax (m : matrix) (u v w : nat) (st : closure) : closure :=
  if decide (mget m v w ≠ 0%Z ∧ mget (transitiveClosure st) u w = 0%Z ∧ u ≠ w)
  then Closure (mset (transitiveClosure st) u w 1) (previous st) 1
               (emitted st ++ [(u, w)])
  else st.

(** The three nested loops over [u], [v], [w] (lines 368-386). *)
Definition sweep (n : nat) (m : matrix) (st : closure) : closure :=
  for_range n (λ u st,
    for_range n (λ v st,
      if decide (mget (previous st) u v ≠ 0%Z) then
        for_range n (λ w st, relax m u v w st) st
      else st) st) st.

(** One turn of the [while (repeat)] loop (lines 359-386). *)
Definition pass (n : nat) (m : matrix) (st : closure) : closure :=
  sweep n m
    (Closure (transitiveClosure st)
             (copy_matrix n (transitiveClosure st) (previous st))
             0 (emitted st)).

(** [while (repeat) { ... }]; [fuel] bounds the number of turns. *)
Fixpoint while_repeat (fuel : nat) (n : nat) (m : matrix) (st : closure)
    : option closure :=
  if decide (repeat st = 0%Z) then Some st
  else match fuel with
       | 0 => None
       | S fuel => while_repeat fuel n m (pass n m st)
       end.

(** The locals when the [while] loop is reached (lines 333-357). *)
Definition closure_start (n : nat) (m : matrix) : closure :=
  let tc := copy_matrix n m (createMatrix n) in
  Closure tc (createMatrix n) 1 (emit_initial n tc []).

Definition calculateTransitiveClosure (fuel : nat) (n : nat) (m : matrix)
    : option closure :=
  while_repeat fuel n m (closure_start n m).

(** The edges the closure computation prints. *)
Definition computeClosure (fuel : nat) (n : nat) (m : matrix)
    : option (list (nat * nat)) :=
  emitted <$> calculateTransitiveClosure fuel n m.

(** ** Reachability *)

(** A direct edge between two cities of the matrix. *)
Definition edge (n : nat) (m : matrix) (u w : nat) : Prop :=
  u < n ∧ w < n ∧ mget m u w ≠ 0%Z.

(** A nonempty directed walk: one edge or more. *)
Definition walk (n : nat) (m : matrix) : relation nat := tc (edge n m).

(** The number of cities not marked in [visited]. *)
Definition unvisited (vis : list Z) : nat := length (filter (λ x, x = 0%Z) vis).

(** A step the search may take: an edge into a city still unmarked. *)
Definition hop (m : matrix) (vis : list Z) (u w : nat) : Prop :=
  mget m u w ≠ 0%Z ∧ vis !! w = Some 0%Z.

(** The three-city chain of the specification's scenarios. *)
Definition chain3 : matrix := [[0;1;0];[0;0;1];[0;0;0]]%Z.

(** What a call of [findPath] on city [i] delivers, entered with
    [visited = vis] and [i] unmarked, on the [n] cities of [m] and a [path]
    array of [room] cells: it returns, it keeps the globals and the size of
    [path]; it answers 0 with [visited] restored when no walk through
    unmarked cities leads from [i] to the destination, and 1 otherwise. *)
Definition call_spec (n : nat) (m : matrix) (destination room : nat)
    (call : nat → world → option (Z * world)) (vis : list Z) : Prop :=
  ∀ i st, N st = n → cityMatrix st = m → visited st = vis →
    length (path st) = room → vis !! i = Some 0%Z →
    ∃ r st', call i st = Some (r, st')
      ∧ N st' = n ∧ cityMatrix st' = m ∧ length (path st') = room
      ∧ ((r = 0%Z ∧ visited st' = vis ∧ ¬ rtc (hop m vis) i destination)
         ∨ (r = 1%Z ∧ rtc (hop m vis) i destination)).

(** ** The closure loops, flattened *)

(** A cell counts as true when it is not 0, as in [if (m[u][w])]. *)
Definition truthy (m : matrix) (u w : nat) : bool :=
  bool_decide (mget m u w ≠ 0%Z).

(** All pairs below [n] in row-major order: [u] ascending, then [w]. *)
Definition pairs (n : nat) : list (nat * nat) :=
  u ← seq 0 n; w ← seq 0 n; [(u, w)].

(** All triples below [n] in the order of the three nested loops. *)
Definition triples (n : nat) : list (nat * nat * nat) :=
  u ← seq 0 n; v ← seq 0 n; w ← seq 0 n; [(u, v, w)].

(** What the loops of [sweep] do at one triple [(u, v, w)]. *)
Definition visit (m : matrix) (st : closure) (t : nat * nat * nat) : closure :=
  let '(u, v, w) := t in
  if decide (mget (previous st) u v ≠ 0%Z) then relax m u v w st else st.

(** The pairs a sweep discovers, as a function of three relations: the
    edges [E], the snapshot [P] and the closure [C] at the start of the
    sweep.  [found] holds the pairs discovered so far, oldest first. *)
Definition discover_step (E P C : nat → nat → bool)
    (found : list (nat * nat)) (t : nat * nat * nat) : list (nat * nat) :=
  let '(u, v, w) := t in
  if P u v && E v w && negb (C u w) && bool_decide ((u, w) ∉ found)
     && bool_decide (u ≠ w)
  then found ++ [(u, w)] else found.

Definition discover (n : nat) (E P C : nat → nat → bool) : list (nat * nat) :=
  foldl (discover_step E P C) [] (triples n).

(** Setting the cells of the pairs in [found], in that order. *)
Definition mark (tc : matrix) (found : list (nat * nat)) : matrix :=
  foldl (λ tc p, mset tc p.1 p.2 1%Z) tc found.

(** The pairs one turn of the [while] loop adds to the closure [tc]. *)
Definition news (n : nat) (m tc : matrix) : list (nat * nat) :=
  discover n (truthy m) (truthy tc) (truthy tc).

(** The locals after [k] turns of the [while] loop. *)
Definition rounds (k : nat) (n : nat) (m : matrix) : closure :=
  Nat.iter k (pass n m) (closure_start n m).

(** A closure matrix that no further turn can extend. *)
Definition closed (n : nat) (m tc : matrix) : Prop :=
  ∀ u v w, u < n → v < n → w < n →
    truthy tc u v = true → truthy m v w = true → u ≠ w → truthy tc u w = true.

(** The number of true cells in row [u]. *)
Definition row_count (n : nat) (tc : matrix) (u : nat) : nat :=
  length (filter (λ w, truthy tc u w = true) (seq 0 n)).

(** ** The closure as the specification words it

    The closure relation is kept as the list of the pairs emitted so far;
    a pair is in the relation when it is in the list. *)

Definition listed (l : list (nat * nat)) (u w : nat) : bool :=
  bool_decide ((u, w) ∈ l).

(** Step 2: every [(u, w)] with [closure[u][w]] true, in row-major order. *)
Definition spec_first (n : nat) (m : matrix) : list (nat * nat) :=
  filter (λ p, truthy m p.1 p.2 = true) (pairs n).

(** Step 3: snapshot, discover in ascending [(u, v, w)] order, and repeat
    while a pass has added an edge. *)
Fixpoint spec_rounds (fuel : nat) (n : nat) (m : matrix)
    (known : list (nat * nat)) : option (list (nat * nat)) :=
  match fuel with
  | 0 => None
  | S fuel =>
    match discover n (truthy m) (listed known) (listed known) with
    | [] => Some known
    | new => spec_rounds fuel n m (known ++ new)
    end
  end.

Definition spec_closure (fuel : nat) (n : nat) (m : matrix)
    : option (list (nat * nat)) :=
  spec_rounds fuel n m (spec_first n m).

(** Both working matrices have the shape [createMatrix] gave them. *)
Definition shaped (n : nat) (st : closure) : Prop :=
  square n (transitiveClosure st) ∧ square n (previous st).

(** Two cities on a ring: each reaches itself, but only round the cycle. *)
Definition ring2 : matrix := [[0;1];[1;0]]%Z.

(** Shape and contents of a concrete matrix, by computation. *)
Ltac concrete_matrix :=
  unfold square, binary;
  by repeat first
    [ split; [reflexivity|]
    | apply Forall_nil_2
    | apply Forall_cons_2
    | reflexivity
    | (left; reflexivity)
    | (right; reflexivity) ].

(** ** Path Finder: the path a successful search prints *)

(** [trail m d s q]: the cities [q] lead from [s] to [d], each joined to
    the next by a non-zero cell of [m]. *)
Inductive trail (m : matrix) (d : nat) : nat → list nat → Prop :=
  | trail_end : trail m d d [d]
  | trail_step s i q :
      mget m s i ≠ 0%Z → trail m d i q → trail m d s (s :: q).

(** What a call on [s] that answers 1 leaves behind, entered in [st] with
    [pathIndex = k]: it printed the cities already on the path followed by
    a trail [q] through cities that were unmarked, it marked exactly the
    cities of [q], and [path] holds the printed path. *)
Definition arrival (d k s : nat) (q : list nat) (st st' : world) : Prop :=
  trail (cityMatrix st) d s q ∧ NoDup q
  ∧ (∀ x, x ∈ q → visited st !! x = Some 0%Z)
  ∧ stdout st' = stdout st ++ [YesPath (take k (path st) ++ q)]
  ∧ (∀ x, visited st' !! x
          = if decide (x ∈ q) then Some 1%Z else visited st !! x)
  ∧ take (k + length q) (path st') = take k (path st) ++ q.

(** What any returning call on [s] leaves behind. *)
Definition outcome (d k s : nat) (st : world) (r : Z) (st' : world) : Prop :=
  cityMatrix st' = cityMatrix st
  ∧ length (path st') = length (path st)
  ∧ take k (path st') = take k (path st)
  ∧ ((r = 0%Z ∧ visited st' = visited st ∧ stdout st' = stdout st)
     ∨ (r = 1%Z ∧ ∃ q, arrival d k s q st st')).

(** ** Closure Engine: counting off the diagonal *)

(** The number of true cells in row [u] outside the diagonal. *)
Definition off_count (n : nat) (tc : matrix) (u : nat) : nat :=
  length (filter (λ w, w ≠ u ∧ truthy tc u w = true) (seq 0 n)).

(** ** Loading and printing the matrix *)

(** The input file, as [fscanf] with ["%d"] sees it: the integers still to
    be read.  A call returns 1 and delivers the next integer, or does not
    return 1 because none is left (end of file, or text that is no
    integer). *)
Definition fscanf_int (input : list Z) : option (Z * list Z) :=
  match input with
  | [] => None
  | x :: rest => Some (x, rest)
  end.

(** The ways the loading functions leave through [exit(EXIT_FAILURE)],
    by the message they print first. *)
Inductive failure : Type :=
  | CannotOpen       (* "Error: Unable to open the input file for reading." *)
  | NoCityCount      (* "Error: Failed to read the number of cities ..." *)
  | NoMatrix.        (* "Error: Failed to read the adjacency matrix ..." *)

Inductive result (A : Type) : Type :=
  | Done (a : A)
  | Exit (e : failure).
Arguments Done {A} a.
Arguments Exit {A} e.

(** A [for] loop whose body may leave the program. *)
Definition for_range_opt {S : Type} (n : nat) (body : nat → S → option S)
    (s : S) : option S :=
  foldl (λ acc i, acc ≫= body i) (Some s) (seq 0 n).

(** [fscanf(inputFile, "%d", &cityMatrix[i][j])] with its check. *)
Definition read_cell (i j : nat) (st : list Z * matrix)
    : option (list Z * matrix) :=
  '(x, rest) ← fscanf_int st.1; Some (rest, mset st.2 i j x).

(** The two reading loops (lines 192-199). *)
Definition read_cells (n : nat) (input : list Z) (mat : matrix)
    : option (list Z * matrix) :=
  for_range_opt n (λ i, for_range_opt n (λ j, read_cell i j)) (input, mat).

(** [readAdjacencyMatrix]: the new values of [N] and [cityMatrix], and
    what is left of the file.  [N] is read as a C [int]; the loops run
    [N] times when it is positive and not at all otherwise. *)
Definition readAdjacencyMatrix (input : list Z)
    : result (Z * matrix * list Z) :=
  match fscanf_int input with
  | None => Exit NoCityCount
  | Some (count, rest) =>
    match read_cells (Z.to_nat count) rest (createMatrix (Z.to_nat count)) with
    | None => Exit NoMatrix
    | Some (rest', mat) => Done (count, mat, rest')
    end
  end.

(** What [implementI] prints. *)
Inductive shown : Type :=
  | NeighborTable             (* "Neighbor table\n" *)
  | TableRow (cells : list Z) (* each cell with "%d ", then "\n" *)
  | BlankLine.                (* "\n" *)

(** The inner printing loop: the cells of row [i], left to right. *)
Definition print_row (n : nat) (mat : matrix) (i : nat) : list Z :=
  for_range n (λ j row, row ++ [mget mat i j]) [].

(** The printing loops of [implementI] (lines 255-262). *)
Definition print_table (n : nat) (mat : matrix) : list shown :=
  for_range n (λ i out, out ++ [TableRow (print_row n mat i)]) [NeighborTable]
  ++ [BlankLine].

(** [implementI]; [file] is [None] when [fopen] returns [NULL]. *)
Definition implementI (file : option (list Z)) : result (list shown) :=
  match file with
  | None => Exit CannotOpen
  | Some input =>
    match readAdjacencyMatrix input with
    | Exit e => Exit e
    | Done (count, mat, _) => Done (print_table (Z.to_nat count) mat)
    end
  end.

(** ** The options that load the file and run an engine *)

(** The lines of the closure listing. *)
Inductive listing : Type :=
  | RTable                   (* "R* table\n" *)
  | Arrow (u w : nat).       (* "%d -> %d\n" *)

(** [implementP] on an opened file: load, print the header, run the
    closure computation.  The inner [option] is [None] when the fuel of
    the [while] loop runs out. *)
Definition implementP (fuel : nat) (input : list Z)
    : result (option (list listing)) :=
  match readAdjacencyMatrix input with
  | Exit e => Exit e
  | Done (count, mat, _) =>
    Done ((λ out, RTable :: ((λ p, Arrow p.1 p.2) <$> out))
          <$> computeClosure fuel (Z.to_nat count) mat)
  end.

(** [implementR] from the opened file on: load, allocate [visited] and
    [path], search, report.  [sourceCity] and [destinationCity] are the two
    integers [sscanf] found in the option's argument; [buf] is what
    [malloc] left in [path]. *)
Definition implementR_from_file (fuel : nat) (input : list Z)
    (buf : list nat) (sourceCity destinationCity : nat)
    : result (option world) :=
  match readAdjacencyMatrix input with
  | Exit e => Exit e
  | Done (count, mat, _) =>
    Done (implementR fuel (Z.to_nat count) mat buf sourceCity destinationCity)
  end.

(** An edge, read off the integers of the file: the cell at position
    [a * n + b] after the count is not 0. *)
Definition file_edge (n : nat) (cells : list Z) (a b : nat) : Prop :=
  a < n ∧ b < n ∧ ∃ x, cells !! (a * n + b) = Some x ∧ x ≠ 0%Z.

(** ** The name of the output file

    Characters are C [char]s, modelled as [Z]; a C string is the
    characters before the first 0.  [strcpy] and [strcat] are the library
    functions as the C standard describes them, on a destination of
    fixed size; [None] stands for a write past its end. *)

(** The characters of "out-". *)
Definition out_prefix : list Z := [111; 117; 116; 45]%Z.

(** [strlen]: the position of the first 0, when there is one. *)
Definition strlen (s : list Z) : option nat :=
  fst <$> list_find (λ c, c = 0%Z) s.

(** [strcpy(dst, src)]: the characters of [src] and the closing 0 go to
    the start of [dst]. *)
Definition strcpy (dst src : list Z) : option (list Z) :=
  if decide (length src < length dst)
  then Some (src ++ 0%Z :: drop (S (length src)) dst)
  else None.

(** [strcat(dst, src)]: the characters of [src] and the closing 0 go
    where the string in [dst] ends. *)
Definition strcat (dst src : list Z) : option (list Z) :=
  k ← strlen dst;
  if decide (k + length src < length dst)
  then Some (take k dst ++ src ++ 0%Z :: drop (S (k + length src)) dst)
  else None.

(** Lines 306-308 of [implementO]: [junk] is the block of
    [strlen] of the file name plus 5 characters as [malloc] returned it, [name] the
    characters of [*filename]. *)
Definition output_name (name junk : list Z) : option (list Z) :=
  buf ← strcpy junk out_prefix; strcat buf name.

(** ** Path Finder: which path is found *)

(** Lexicographic order on paths. *)
Inductive lex_le : list nat → list nat → Prop :=
  | lex_le_nil q : lex_le [] q
  | lex_le_lt x y p q : x < y → lex_le (x :: p) (y :: q)
  | lex_le_eq x p q : lex_le p q → lex_le (x :: p) (x :: q).

(** [q] comes first among the paths from [s] to [d] that repeat no city
    and use only cities unmarked in [vis]. *)
Definition first_path (m : matrix) (vis : list Z) (d s : nat)
    (q : list nat) : Prop :=
  ∀ q', trail m d s q' → NoDup q' →
    (∀ x, x ∈ q' → vis !! x = Some 0%Z) → lex_le q q'.

(** What the property below needs of a call on a city unmarked in [vis],
    on [n] cities and a [path] of [room] cells: it keeps [N], it has the
    outcome above, it answers 0 only when no walk through unmarked cities
    leads to the destination, and when it answers 1 its path is the first. *)
Definition call_first (n room : nat) (m : matrix) (vis : list Z) (d k : nat)
    (call : nat → world → option (Z * world)) : Prop :=
  ∀ i st r st', call i st = Some (r, st') →
    N st = n → cityMatrix st = m → visited st = vis →
    length (path st) = room → vis !! i = Some 0%Z →
    N st' = n ∧ outcome d k i st r st'
    ∧ (r = 0%Z → ¬ rtc (hop m vis) i d)
    ∧ (r = 1%Z → ∀ q, arrival d k i q st st' → first_path m vis d i q).

(** * Properties *)

(** ** The scenarios of the specification, run on the embedding *)

Example chain3_closure :
  computeClosure 3 3 chain3 = Some [(0,1); (1,2); (0,2)].
Proof. reflexivity. Qed.

Example chain3_path :
  stdout <$> implementR 3 3 chain3 [7;7;7] 0 2 = Some [YesPath [0;1;2]].
Proof. reflexivity. Qed.

Example disconnected_pair :
  stdout <$> implementR 2 2 [[0;0];[0;0]]%Z [7;7] 0 1 = Some [NoPath]
  ∧ computeClosure 1 2 [[0;0];[0;0]]%Z = Some [].
Proof. split; reflexivity. Qed.

Example single_city : computeClosure 1 1 [[0%Z]] = Some [].
Proof. reflexivity. Qed.

(** ** Path Finder: what a call leaves behind *)

(** A call that returns leaves the globals as they were. *)
Lemma scan_frame call source todo st found st' :
  (∀ i s r s', call i s = Some (r, s') →
     N s' = N s ∧ cityMatrix s' = cityMatrix s) →
  scan call source todo st = Some (found, st') →
  N st' = N st ∧ cityMatrix st' = cityMatrix st.
Proof.
  intros Hcall. revert st.
  induction todo as [|i todo IH]; intros st Hscan; simpl in Hscan.
  - by simplify_eq.
  - destruct (visited st !! i) as [vi|]; simpl in Hscan; [|done].
    destruct (decide (vi = 0%Z)); [|by apply IH].
    destruct (cell (cityMatrix st) source i) as [ed|]; simpl in Hscan; [|done].
    destruct (decide (ed ≠ 0%Z)); [|by apply IH].
    destruct (call i st) as [[r s1]|] eqn:Hc; simpl in Hscan; [|done].
    destruct (Hcall _ _ _ _ Hc) as [HN HM].
    destruct (decide (r ≠ 0%Z)).
    + simplify_eq. done.
    + destruct (IH _ Hscan) as [-> ->]. done.
Qed.

Lemma findPath_frame fuel source destination pathIndex st r st' :
  findPath fuel source destination pathIndex st = Some (r, st') →
  N st' = N st ∧ cityMatrix st' = cityMatrix st.
Proof.
  revert source pathIndex st r st'.
  induction fuel as [|fuel IH]; intros source pathIndex st r st' Hrun; [done|].
  simpl in Hrun. unfold store_visited, store_path in Hrun.
  repeat (case_decide; simpl in Hrun; try done).
  - by simplify_eq.
  - match type of Hrun with
    | context [scan ?c ?s ?t ?w] =>
        destruct (scan c s t w) as [[found s1]|] eqn:Hscan
    end; simpl in Hrun; [|done].
    apply scan_frame in Hscan; [|intros; by eapply IH].
    simpl in Hscan. destruct Hscan as [HN HM].
    destruct found; simpl in Hrun.
    + by simplify_eq.
    + case_decide; simpl in Hrun; [|done]. by simplify_eq.
Qed.

(** A loop that runs to its end leaves [visited] as it found it, provided
    every failing call restores it. *)
Lemma scan_restores call source todo st st' :
  (∀ i s s', visited s !! i = Some 0%Z → call i s = Some (0%Z, s') →
     visited s' = visited s) →
  scan call source todo st = Some (false, st') →
  visited st' = visited st.
Proof.
  intros Hcall. revert st.
  induction todo as [|i todo IH]; intros st Hscan; simpl in Hscan.
  - by simplify_eq.
  - destruct (visited st !! i) as [vi|] eqn:Hvi; simpl in Hscan; [|done].
    destruct (decide (vi = 0%Z)) as [->|]; [|by apply IH].
    destruct (cell (cityMatrix st) source i) as [ed|]; simpl in Hscan; [|done].
    destruct (decide (ed ≠ 0%Z)); [|by apply IH].
    destruct (call i st) as [[r s1]|] eqn:Hc; simpl in Hscan; [|done].
    destruct (decide (r ≠ 0%Z)) as [|Hr]; [done|].
    assert (r = 0%Z) as -> by lia.
    rewrite (IH _ Hscan). by eapply Hcall.
Qed.

(** In general a failing call returns [visited] with the entry of [source]
    cleared and every other entry as at entry. *)
Lemma findPath_failure_visited fuel source destination pathIndex st st' :
  findPath fuel source destination pathIndex st = Some (0%Z, st') →
  visited st' = <[source:=0%Z]> (visited st).
Proof.
  revert source pathIndex st st'.
  induction fuel as [|fuel IH]; intros source pathIndex st st' Hrun; [done|].
  simpl in Hrun. unfold store_visited, store_path in Hrun.
  repeat (case_decide; simpl in Hrun; try done).
  match type of Hrun with
  | context [scan ?c ?s ?t ?w] =>
      destruct (scan c s t w) as [[found s1]|] eqn:Hscan
  end; simpl in Hrun; [|done].
  destruct found; simpl in Hrun; [done|].
  case_decide; simpl in Hrun; [|done]. simplify_eq. simpl.
  apply scan_restores in Hscan.
  - rewrite Hscan. simpl. by rewrite list_insert_insert_eq.
  - intros i s s' Hi Hc. rewrite (IH _ _ _ _ Hc). by apply list_insert_id.
Qed.

(** ** Path Finder: termination and what the answer means *)

Lemma unvisited_mark (vis : list Z) s :
  vis !! s = Some 0%Z → S (unvisited (<[s:=1%Z]> vis)) = unvisited vis.
Proof.
  unfold unvisited. revert s.
  induction vis as [|x vis IH]; intros [|s] Hs; [done..| |].
  - injection Hs as ->. change (<[0:=1%Z]> (0%Z :: vis)) with (1%Z :: vis).
    rewrite !filter_cons. by repeat case_decide.
  - change (<[S s:=1%Z]> (x :: vis)) with (x :: <[s:=1%Z]> vis).
    specialize (IH s Hs). rewrite !filter_cons.
    destruct (decide (x = 0%Z)); simpl; by rewrite IH.
Qed.

Lemma cell_square n (m : matrix) i j :
  square n m → i < n → j < n → ∃ x, cell m i j = Some x.
Proof.
  intros [Hlen Hrows] Hi Hj. unfold cell.
  destruct (lookup_lt_is_Some_2 m i) as [row Hrow]; [lia|].
  rewrite Hrow. simpl.
  apply (lookup_lt_is_Some_2 row j).
  rewrite Forall_lookup in Hrows. rewrite (Hrows _ _ Hrow). done.
Qed.

Lemma hop_unmark m (vis : list Z) s u w :
  hop m (<[s:=1%Z]> vis) u w → hop m vis u w.
Proof.
  intros [He Hw]. split; [done|].
  destruct (decide (s = w)) as [->|Hne].
  - apply lookup_lt_Some in Hw as Hlt. rewrite length_insert in Hlt.
    rewrite list_lookup_insert_eq in Hw by done. done.
  - by rewrite list_lookup_insert_ne in Hw.
Qed.

(** A walk that leaves [s] can be cut after its last visit to [s]: what
    remains starts with an edge out of [s] and never meets [s] again. *)
Lemma hop_first m (vis : list Z) s d :
  s ≠ d → rtc (hop m vis) s d →
  ∃ i, hop m (<[s:=1%Z]> vis) s i ∧ rtc (hop m (<[s:=1%Z]> vis)) i d.
Proof.
  intros Hne Hrtc.
  cut (d = s ∨ ∃ i, hop m (<[s:=1%Z]> vis) s i
                    ∧ rtc (hop m (<[s:=1%Z]> vis)) i d).
  { intros [->|]; done. }
  clear Hne. revert d Hrtc. refine (rtc_ind_r _ s _ _).
  - by left.
  - intros y z Hsy [He Hz] IH.
    destruct (decide (z = s)) as [|Hzs]; [by left|right].
    assert (hop m (<[s:=1%Z]> vis) y z) as Hyz.
    { split; [done|]. rewrite list_lookup_insert_ne; done. }
    destruct IH as [->|(i & Hsi & Hiy)].
    + exists z. done.
    + exists i. split; [done|]. by eapply rtc_r.
Qed.

Section search.
Variables (n : nat) (m : matrix) (destination : nat) (room : nat).
Hypothesis Hsquare : square n m.

Lemma scan_spec call (vis : list Z) source todo st :
  call_spec n m destination room call vis → length vis = n → source < n →
  (∀ i, i ∈ todo → i < n) →
  N st = n → cityMatrix st = m → visited st = vis →
  length (path st) = room →
  ∃ found st', scan call source todo st = Some (found, st')
    ∧ N st' = n ∧ cityMatrix st' = m ∧ length (path st') = room
    ∧ if found : bool
      then ∃ i, i ∈ todo ∧ hop m vis source i
                ∧ rtc (hop m vis) i destination
      else visited st' = vis
           ∧ ∀ i, i ∈ todo → hop m vis source i →
               ¬ rtc (hop m vis) i destination.
Proof.
  intros Hcall Hlen Hsrc. revert st.
  induction todo as [|i todo IH]; intros st Hin HN HM HV HP.
  - exists false, st. simpl. repeat split; try done.
    intros i Hi. by apply elem_of_nil in Hi.
  - assert (i < n) as Hi by (apply Hin; left).
    assert (∀ j, j ∈ todo → j < n) as Hin' by (intros j Hj; apply Hin; by right).
    destruct (lookup_lt_is_Some_2 vis i) as [vi Hvi]; [lia|].
    destruct (cell_square n m source i Hsquare Hsrc Hi) as [ed Hed].
    assert (mget m source i = ed) as Hget by (unfold mget; by rewrite Hed).
    simpl. rewrite HV, Hvi. simpl.
    destruct (decide (vi = 0%Z)) as [->|Hvi0].
    + rewrite HM, Hed. simpl.
      destruct (decide (ed ≠ 0%Z)) as [Hed0|Hed0].
      * destruct (Hcall i st HN HM HV HP Hvi)
          as (r & s1 & -> & HN1 & HM1 & HP1 & [(-> & HV1 & Hno)|(-> & Hyes)]);
          simpl.
        -- destruct (IH s1 Hin' HN1 HM1 HV1 HP1)
             as (found & st' & -> & ? & ? & ? & Hres).
           exists found, st'. repeat split; try done.
           destruct found.
           ++ destruct Hres as (j & ? & ? & ?). exists j.
              split; [by right|done].
           ++ destruct Hres as [? Hres]. split; [done|].
              intros j [->|Hj]%elem_of_cons ?; [done|by apply Hres].
        -- exists true, s1. repeat split; try done.
           exists i. split; [by left|]. split; [|done].
           split; [by rewrite Hget|done].
      * destruct (IH st Hin' HN HM HV HP)
          as (found & st' & -> & ? & ? & ? & Hres).
        exists found, st'. repeat split; try done.
        destruct found.
        -- destruct Hres as (j & ? & ? & ?). exists j. split; [by right|done].
        -- destruct Hres as [? Hres]. split; [done|].
           intros j [->|Hj]%elem_of_cons Hhop; [|by apply Hres].
           destruct Hhop as [He _]. rewrite Hget in He. by contradict Hed0.
    + destruct (IH st Hin' HN HM HV HP)
        as (found & st' & -> & ? & ? & ? & Hres).
      exists found, st'. repeat split; try done.
      destruct found.
      * destruct Hres as (j & ? & ? & ?). exists j. split; [by right|done].
      * destruct Hres as [? Hres]. split; [done|].
        intros j [->|Hj]%elem_of_cons Hhop; [|by apply Hres].
        destruct Hhop as [_ Hv]. congruence.
Qed.

(** The search proper: by induction on the fuel, which only has to
    cover the cities still unmarked. *)
Lemma findPath_spec fuel pathIndex (vis : list Z) :
  length vis = n → unvisited vis ≤ fuel → pathIndex + unvisited vis ≤ room →
  call_spec n m destination room
    (λ i, findPath fuel i destination pathIndex) vis.
Proof.
  revert pathIndex vis.
  induction fuel as [|fuel IH];
    intros pathIndex vis Hlen Hfuel Hroom source st HN HM HV HP Hsrc.
  { apply unvisited_mark in Hsrc. lia. }
  pose proof (unvisited_mark _ _ Hsrc) as Hcount.
  apply lookup_lt_Some in Hsrc as Hlt.
  simpl. unfold store_visited, store_path. rewrite HV.
  rewrite decide_True by done. simpl.
  rewrite decide_True by lia. simpl.
  destruct (decide (source = destination)) as [->|Hne].
  - eexists _, _. split; [done|]. simpl. rewrite length_insert.
    repeat split; try done. right. done.
  - set (vis1 := <[source:=1%Z]> vis) in *.
    match goal with
    | |- context [scan ?c ?s ?t ?w] =>
        destruct (scan_spec c vis1 s t w) as (found & s1 & -> & HN1 & HM1 & HP1 & Hres)
    end; simpl; try done.
    + apply IH; [unfold vis1; by rewrite length_insert|lia..].
    + unfold vis1. by rewrite length_insert.
    + lia.
    + intros i Hi%elem_of_seq. lia.
    + by rewrite length_insert.
    + destruct found; simpl.
      * exists 1%Z, s1. repeat split; try done. right. split; [done|].
        destruct Hres as (i & _ & Hsi & Hid).
        eapply rtc_l; [by eapply hop_unmark|].
        eapply rtc_subrel; [|done]. intros ??; apply hop_unmark.
      * destruct Hres as [HV1 Hres].
        unfold store_visited. rewrite HV1.
        rewrite decide_True by (unfold vis1; by rewrite length_insert).
        simpl. eexists _, _. split; [done|]. simpl.
        repeat split; try done. left. split; [done|].
        split.
        -- unfold vis1. rewrite list_insert_insert_eq. by apply list_insert_id.
        -- intros Hwalk. apply hop_first in Hwalk as (i & Hsi & Hid); [|done].
           eapply Hres; [|done..]. apply elem_of_seq.
           destruct Hsi as [_ Hi%lookup_lt_Some].
           rewrite length_insert in Hi. lia.
Qed.
End search.

(** ** Matrix Store: reads after writes *)

Lemma createMatrix_square n : square n (createMatrix n).
Proof.
  unfold createMatrix. split; [by rewrite length_replicate|].
  apply Forall_forall. intros row Hrow%elem_of_replicate.
  destruct Hrow as [-> _]. by rewrite length_replicate.
Qed.

Lemma mset_square n (m : matrix) i j x : square n m → square n (mset m i j x).
Proof.
  intros [Hlen Hrows]. unfold mset. split; [by rewrite length_alter|].
  apply Forall_alter; [done|]. intros row _ Hrow. by rewrite length_insert.
Qed.

Lemma mget_mset_eq n (m : matrix) i j x :
  square n m → i < n → j < n → mget (mset m i j x) i j = x.
Proof.
  intros [Hlen Hrows] Hi Hj. unfold mget, cell, mset.
  rewrite list_lookup_alter, decide_True by done.
  destruct (lookup_lt_is_Some_2 m i) as [row Hrow]; [lia|].
  rewrite Hrow. simpl. rewrite list_lookup_insert_eq; [done|].
  rewrite Forall_lookup in Hrows. by rewrite (Hrows _ _ Hrow).
Qed.

Lemma mget_mset_ne (m : matrix) i j x a b :
  (a, b) ≠ (i, j) → mget (mset m i j x) a b = mget m a b.
Proof.
  intros Hne. unfold mget, cell, mset.
  rewrite list_lookup_alter. destruct (decide (i = a)) as [->|]; [|done].
  destruct (m !! a) as [row|]; simpl; [|done].
  rewrite list_lookup_insert_ne; [done|]. congruence.
Qed.

(** ** Loops *)

Lemma for_range_S {S : Type} n (body : nat → S → S) s :
  for_range (Datatypes.S n) body s = body n (for_range n body s).
Proof. unfold for_range. by rewrite seq_S, foldl_snoc. Qed.

Lemma for_range_ind {S : Type} (I : nat → S → Prop) n (body : nat → S → S) s :
  I 0 s → (∀ i s, i < n → I i s → I (Datatypes.S i) (body i s)) →
  I n (for_range n body s).
Proof.
  intros H0 Hstep. induction n as [|n IH]; [done|].
  rewrite for_range_S. apply Hstep; [lia|]. apply IH.
  intros i s' Hi. apply Hstep. lia.
Qed.

Lemma foldl_bind {A B C : Type} (f : A → C → A) (g : B → list C) l a :
  foldl f a (l ≫= g) = foldl (λ a x, foldl f a (g x)) a l.
Proof.
  revert a. induction l as [|x l IH]; intros a; [done|].
  rewrite bind_cons, foldl_app. simpl. apply IH.
Qed.

Lemma foldl_ext_in {A B : Type} (f g : A → B → A) l a :
  (∀ a x, x ∈ l → f a x = g a x) → foldl f a l = foldl g a l.
Proof.
  revert a. induction l as [|x l IH]; intros a Hfg; [done|].
  simpl. rewrite Hfg by left. apply IH. intros ???. apply Hfg. by right.
Qed.

Lemma elem_of_pairs n u w : (u, w) ∈ pairs n ↔ u < n ∧ w < n.
Proof.
  unfold pairs. rewrite list_elem_of_bind. split.
  - intros (u' & Hin & Hu). apply list_elem_of_bind in Hin as (w' & Hin & Hw).
    apply list_elem_of_singleton in Hin. simplify_eq.
    apply elem_of_seq in Hu, Hw. lia.
  - intros [Hu Hw]. exists u. split; [|apply elem_of_seq; lia].
    apply list_elem_of_bind. exists w. split; [by left|apply elem_of_seq; lia].
Qed.

Lemma elem_of_triples n u v w : (u, v, w) ∈ triples n ↔ u < n ∧ v < n ∧ w < n.
Proof.
  unfold triples. rewrite list_elem_of_bind. split.
  - intros (u' & Hin & Hu). apply list_elem_of_bind in Hin as (v' & Hin & Hv).
    apply list_elem_of_bind in Hin as (w' & Hin & Hw).
    apply list_elem_of_singleton in Hin. simplify_eq.
    apply elem_of_seq in Hu, Hv, Hw. lia.
  - intros (Hu & Hv & Hw). exists u. split; [|apply elem_of_seq; lia].
    apply list_elem_of_bind. exists v. split; [|apply elem_of_seq; lia].
    apply list_elem_of_bind. exists w. split; [by left|apply elem_of_seq; lia].
Qed.

Lemma NoDup_pairs n : NoDup (pairs n).
Proof.
  unfold pairs. apply NoDup_bind; [| |apply NoDup_seq].
  - intros u1 u2 p _ _ H1 H2.
    apply list_elem_of_bind in H1 as (w1 & H1 & _).
    apply list_elem_of_bind in H2 as (w2 & H2 & _).
    apply list_elem_of_singleton in H1, H2. by simplify_eq.
  - intros u _. apply NoDup_bind; [| |apply NoDup_seq].
    + intros w1 w2 p _ _ H1 H2.
      apply list_elem_of_singleton in H1, H2. by simplify_eq.
    + intros w _. apply NoDup_singleton.
Qed.

(** The enumerations are the loop orders: [(u, w)] sits at position
    [u * n + w] of [pairs n], and [(u, v, w)] at position
    [u * n * n + v * n + w] of [triples n]. *)
Lemma lookup_bind_uniform {A B : Type} (f : A → list B) k (l : list A) i j x :
  (∀ y, length (f y) = k) → l !! i = Some x → j < k →
  (l ≫= f) !! (i * k + j) = f x !! j.
Proof.
  intros Hk. revert i. induction l as [|y l IH]; intros i Hi Hj; [done|].
  rewrite bind_cons. destruct i as [|i]; simplify_eq/=.
  - rewrite lookup_app_l; [done|]. rewrite Hk. done.
  - rewrite lookup_app_r by (rewrite Hk; lia). rewrite Hk.
    replace (k + i * k + j - k) with (i * k + j) by lia. by apply IH.
Qed.

Lemma length_bind_uniform {A B : Type} (f : A → list B) k (l : list A) :
  (∀ y, length (f y) = k) → length (l ≫= f) = length l * k.
Proof.
  intros Hk. induction l as [|y l IH]; [done|].
  rewrite bind_cons, length_app, Hk, IH. simpl. lia.
Qed.

Lemma bind_singleton_fmap {A B : Type} (g : A → B) (l : list A) :
  l ≫= (λ x, [g x]) = g <$> l.
Proof. induction l as [|x l IH]; [done|]. rewrite bind_cons, IH. done. Qed.

Lemma pairs_lookup n u w :
  u < n → w < n → pairs n !! (u * n + w) = Some (u, w).
Proof.
  intros Hu Hw. unfold pairs.
  rewrite (lookup_bind_uniform _ n _ u w u).
  - rewrite bind_singleton_fmap, list_lookup_fmap, lookup_seq_lt by done. done.
  - intros y. by rewrite bind_singleton_fmap, length_fmap, length_seq.
  - by apply lookup_seq_lt.
  - done.
Qed.

Lemma triples_lookup n u v w :
  u < n → v < n → w < n →
  triples n !! (u * (n * n) + (v * n + w)) = Some (u, v, w).
Proof.
  intros Hu Hv Hw. unfold triples.
  assert (∀ u v : nat, length (seq 0 n ≫= λ w, [(u, v, w)]) = n) as Hrow.
  { intros ??. by rewrite bind_singleton_fmap, length_fmap, length_seq. }
  rewrite (lookup_bind_uniform _ (n * n) _ u (v * n + w) u).
  - rewrite (lookup_bind_uniform _ n _ v w v); [|done|by apply lookup_seq_lt|done].
    rewrite bind_singleton_fmap, list_lookup_fmap, lookup_seq_lt by done. done.
  - intros y. rewrite (length_bind_uniform _ n) by done.
    by rewrite length_seq.
  - by apply lookup_seq_lt.
  - nia.
Qed.

Lemma foldl_pairs {A : Type} (f : A → nat * nat → A) n a :
  foldl f a (pairs n)
  = for_range n (λ u a, for_range n (λ w a, f a (u, w)) a) a.
Proof.
  unfold pairs, for_range. rewrite foldl_bind.
  apply foldl_ext_in. intros a' u _. by rewrite foldl_bind.
Qed.

Lemma foldl_triples {A : Type} (f : A → nat * nat * nat → A) n a :
  foldl f a (triples n)
  = for_range n (λ u a,
      for_range n (λ v a, for_range n (λ w a, f a (u, v, w)) a) a) a.
Proof.
  unfold triples, for_range. rewrite foldl_bind.
  apply foldl_ext_in. intros a' u _. rewrite foldl_bind.
  apply foldl_ext_in. intros a'' v _. by rewrite foldl_bind.
Qed.

Lemma foldl_collect {A : Type} (P : A → Prop) `{∀ x, Decision (P x)} l out :
  foldl (λ out x, if decide (P x) then out ++ [x] else out) out l
  = out ++ filter P l.
Proof.
  revert out. induction l as [|x l IH]; intros out; simpl.
  - by rewrite app_nil_r.
  - rewrite IH, filter_cons. destruct (decide (P x)); [|done].
    by rewrite <- app_assoc.
Qed.

(** ** Closure Engine: the loops as list functions *)

Lemma copy_matrix_spec n (src dst : matrix) :
  square n dst →
  square n (copy_matrix n src dst)
  ∧ ∀ i j, i < n → j < n → mget (copy_matrix n src dst) i j = mget src i j.
Proof.
  intros Hdst. unfold copy_matrix.
  apply (for_range_ind (λ i d, square n d
    ∧ ∀ a b, a < i → b < n → mget d a b = mget src a b)).
  { split; [done|]. intros; lia. }
  intros i d Hi [Hd Hrows].
  cut (square n (for_range n (λ j d, mset d i j (mget src i j)) d)
       ∧ (∀ a b, a < i → b < n →
            mget (for_range n (λ j d, mset d i j (mget src i j)) d) a b
            = mget src a b)
       ∧ ∀ b, b < n →
            mget (for_range n (λ j d, mset d i j (mget src i j)) d) i b
            = mget src i b).
  { intros (? & Hold & Hnew). split; [done|]. intros a b Ha Hb.
    destruct (decide (a = i)) as [->|]; [by apply Hnew|apply Hold; lia]. }
  apply (for_range_ind (λ j d', square n d'
    ∧ (∀ a b, a < i → b < n → mget d' a b = mget src a b)
    ∧ ∀ b, b < j → mget d' i b = mget src i b)).
  { repeat split; [apply Hd..|done|]. intros; lia. }
  intros j d' Hj (Hd' & Hold & Hnew). split; [by apply mset_square|]. split.
  - intros a b Ha Hb. rewrite mget_mset_ne; [by apply Hold|].
    intros [= -> ->]. lia.
  - intros b Hb. destruct (decide (b = j)) as [->|].
    + by apply (mget_mset_eq n).
    + rewrite mget_mset_ne; [apply Hnew; lia|]. congruence.
Qed.

Lemma emit_initial_filter n (tc : matrix) out :
  emit_initial n tc out
  = out ++ filter (λ p, mget tc p.1 p.2 = 1%Z) (pairs n).
Proof.
  unfold emit_initial.
  rewrite <- (foldl_collect (λ p, mget tc p.1 p.2 = 1%Z)).
  by rewrite foldl_pairs.
Qed.

Lemma relax_previous m u v w st : previous (relax m u v w st) = previous st.
Proof. unfold relax. by case_decide. Qed.

Lemma sweep_flat n m st : sweep n m st = foldl (visit m) st (triples n).
Proof.
  rewrite foldl_triples. unfold sweep, for_range.
  apply foldl_ext_in. intros st1 u _.
  apply foldl_ext_in. intros st2 v _.
  generalize (seq 0 n). intros l. revert st2.
  induction l as [|w l IH]; intros st2; simpl.
  - by case_decide.
  - rewrite <- IH.
    destruct (decide (mget (previous st2) u v ≠ 0%Z)) as [Hp|Hp].
    + rewrite relax_previous. by rewrite decide_True.
    + by rewrite decide_False.
Qed.

Lemma mark_snoc (tc : matrix) found p :
  mark tc (found ++ [p]) = mset (mark tc found) p.1 p.2 1%Z.
Proof. unfold mark. by rewrite foldl_snoc. Qed.

Lemma mark_square n (tc : matrix) found : square n tc → square n (mark tc found).
Proof.
  intros Htc. induction found as [|p found IH] using rev_ind; [done|].
  rewrite mark_snoc. by apply mset_square.
Qed.

Lemma mget_mark n (tc : matrix) found a b :
  square n tc → a < n → b < n →
  mget (mark tc found) a b
  = if decide ((a, b) ∈ found) then 1%Z else mget tc a b.
Proof.
  intros Htc Ha Hb. induction found as [|[u w] found IH] using rev_ind.
  - rewrite decide_False; [done|]. apply not_elem_of_nil.
  - rewrite mark_snoc. simpl. destruct (decide ((a, b) = (u, w))) as [[= -> ->]|Hne].
    + rewrite (mget_mset_eq n); [|by apply mark_square|done..].
      rewrite decide_True; [done|]. apply elem_of_app. right. by left.
    + rewrite mget_mset_ne by done. rewrite IH.
      destruct (decide ((a, b) ∈ found)) as [Hin|Hin].
      * rewrite decide_True; [done|]. apply elem_of_app. by left.
      * rewrite decide_False; [done|].
        intros [?|Hs%list_elem_of_singleton]%elem_of_app; done.
Qed.

Lemma truthy_mark n (tc : matrix) found a b :
  square n tc → a < n → b < n →
  truthy (mark tc found) a b = truthy tc a b || bool_decide ((a, b) ∈ found).
Proof.
  intros Htc Ha Hb. unfold truthy. rewrite (mget_mark n) by done.
  destruct (decide ((a, b) ∈ found)).
  - rewrite (bool_decide_eq_true_2 (_ ∈ _)) by done.
    rewrite orb_true_r. by apply bool_decide_eq_true_2.
  - rewrite (bool_decide_eq_false_2 (_ ∈ _)) by done. by rewrite orb_false_r.
Qed.

(** ** Closure Engine: what a sweep discovers *)

Lemma discover_fold_grows E P C l acc :
  ∃ new, foldl (discover_step E P C) acc l = acc ++ new.
Proof.
  revert acc. induction l as [|[[u v] w] l IH]; intros acc; simpl.
  - exists []. by rewrite app_nil_r.
  - destruct (_ && _).
    + destruct (IH (acc ++ [(u, w)])) as [new ->].
      exists ((u, w) :: new). by rewrite <- app_assoc.
    + apply IH.
Qed.

Lemma discover_fold_NoDup E P C l acc :
  NoDup acc → NoDup (foldl (discover_step E P C) acc l).
Proof.
  revert acc. induction l as [|[[u v] w] l IH]; intros acc Hacc; simpl; [done|].
  destruct (_ && _) eqn:Hfire; [|by apply IH].
  apply IH. apply NoDup_app. split; [done|]. split; [|apply NoDup_singleton].
  intros p Hp ->%list_elem_of_singleton.
  apply andb_prop in Hfire as [Hfire _]. apply andb_prop in Hfire as [_ Hfire].
  by apply bool_decide_eq_true in Hfire.
Qed.

(** Every discovered pair has a reason: a triple of the sweep that joins a
    pair of the snapshot with an edge and lands outside the closure. *)
Lemma discover_fold_sound E P C l acc p :
  p ∈ foldl (discover_step E P C) acc l →
  p ∈ acc ∨ ∃ v, (p.1, v, p.2) ∈ l
     ∧ P p.1 v = true ∧ E v p.2 = true ∧ C p.1 p.2 = false ∧ p.1 ≠ p.2.
Proof.
  revert acc. induction l as [|[[u v] w] l IH]; intros acc Hp; simpl in Hp.
  - by left.
  - destruct (_ && _) eqn:Hfire.
    + apply IH in Hp as [[Hp|Hp%list_elem_of_singleton]%elem_of_app|(v' & ? & ?)].
      * by left.
      * subst p. right. exists v. simpl. split; [by left|].
        repeat (apply andb_prop in Hfire as [Hfire ?]).
        repeat split; try done.
        -- by apply negb_true_iff.
        -- by eapply bool_decide_eq_true_1.
      * right. exists v'. split; [by right|done].
    + apply IH in Hp as [?|(v' & ? & ?)]; [by left|].
      right. exists v'. split; [by right|done].
Qed.

(** Every triple of the sweep whose premises hold has its conclusion in
    the closure or among the discovered pairs. *)
Lemma discover_fold_complete E P C l acc u v w :
  (u, v, w) ∈ l → P u v = true → E v w = true → u ≠ w →
  C u w = true ∨ (u, w) ∈ foldl (discover_step E P C) acc l.
Proof.
  revert acc. induction l as [|[[u' v'] w'] l IH]; intros acc Hin HP HE Hne.
  - by apply elem_of_nil in Hin.
  - apply elem_of_cons in Hin as [[= <- <- <-]|Hin]; [|by apply IH].
    simpl. rewrite HP, HE. simpl.
    destruct (C u w); [by left|right]. simpl.
    rewrite (bool_decide_eq_true_2 (u ≠ w)) by done. rewrite andb_true_r.
    destruct (decide ((u, w) ∈ acc)) as [Hacc|Hacc].
    + rewrite bool_decide_eq_false_2 by (by intros ?).
      destruct (discover_fold_grows E P C l acc) as [new ->].
      apply elem_of_app. by left.
    + rewrite bool_decide_eq_true_2 by done.
      destruct (discover_fold_grows E P C l (acc ++ [(u, w)])) as [new ->].
      apply elem_of_app. left. apply elem_of_app. right. by left.
Qed.

Lemma discover_ext n E P P' C C' :
  (∀ u w, u < n → w < n → P u w = P' u w) →
  (∀ u w, u < n → w < n → C u w = C' u w) →
  discover n E P C = discover n E P' C'.
Proof.
  intros HP HC. unfold discover. apply foldl_ext_in.
  intros acc [[u v] w] (Hu & Hv & Hw)%elem_of_triples. simpl.
  by rewrite HP, HC.
Qed.

(** One triple: the loop body changes the matrix and prints exactly when
    the discovery adds the pair. *)
Lemma visit_step n m (tc0 prev : matrix) out acc r u v w :
  square n tc0 → u < n → w < n →
  (visit m (Closure (mark tc0 acc) prev r (out ++ acc)) (u, v, w)
   = Closure (mark tc0 acc) prev r (out ++ acc)
   ∧ discover_step (truthy m) (truthy prev) (truthy tc0) acc (u, v, w) = acc)
  ∨ (visit m (Closure (mark tc0 acc) prev r (out ++ acc)) (u, v, w)
     = Closure (mark tc0 (acc ++ [(u, w)])) prev 1%Z (out ++ acc ++ [(u, w)])
     ∧ discover_step (truthy m) (truthy prev) (truthy tc0) acc (u, v, w)
       = acc ++ [(u, w)]).
Proof.
  intros Htc0 Hu Hw.
  unfold visit, relax, discover_step, truthy.
  cbn [transitiveClosure previous emitted repeat].
  rewrite (mget_mark n) by done. rewrite mark_snoc, app_assoc.
  destruct (decide (mget prev u v ≠ 0%Z)) as [Hp|Hp];
    [rewrite (bool_decide_eq_true_2 _ Hp)
    |rewrite (bool_decide_eq_false_2 _ Hp); by left].
  destruct (decide (mget m v w ≠ 0%Z)) as [He|He];
    [rewrite (bool_decide_eq_true_2 _ He)
    |rewrite (bool_decide_eq_false_2 _ He), decide_False by tauto; by left].
  destruct (decide (u = w)) as [Huw|Huw].
  { rewrite (bool_decide_eq_false_2 (u ≠ w)) by tauto.
    rewrite andb_false_r, decide_False by tauto. by left. }
  rewrite (bool_decide_eq_true_2 (u ≠ w)) by done.
  destruct (decide ((u, w) ∈ acc)) as [Hacc|Hacc].
  { rewrite (bool_decide_eq_false_2 (_ ∉ _)) by tauto.
    rewrite andb_false_r, decide_False by (intros (_ & ? & _); done).
    by left. }
  rewrite (bool_decide_eq_true_2 (_ ∉ _)) by done.
  destruct (decide (mget tc0 u w = 0%Z)) as [Hc|Hc].
  - rewrite (bool_decide_eq_false_2 (_ ≠ _)) by tauto.
    rewrite decide_True by done. by right.
  - rewrite (bool_decide_eq_true_2 (_ ≠ _)) by done.
    rewrite decide_False by tauto. by left.
Qed.

(** The sweep over the matrix, step by step, is the discovery over the
    three relations: the closure matrix is the one at the start with the
    discovered cells set, and the lines printed are the discovered pairs. *)
Lemma visit_discover n m (tc0 prev : matrix) out l acc r :
  square n tc0 →
  (∀ u v w, (u, v, w) ∈ l → u < n ∧ w < n) →
  ∃ r',
    foldl (visit m) (Closure (mark tc0 acc) prev r (out ++ acc)) l
    = Closure
        (mark tc0 (foldl (discover_step (truthy m) (truthy prev) (truthy tc0)) acc l))
        prev r'
        (out ++ foldl (discover_step (truthy m) (truthy prev) (truthy tc0)) acc l)
    ∧ ((r' = r ∧ foldl (discover_step (truthy m) (truthy prev) (truthy tc0)) acc l = acc)
       ∨ (r' = 1%Z
          ∧ length acc
            < length (foldl (discover_step (truthy m) (truthy prev) (truthy tc0)) acc l))).
Proof.
  intros Htc0. revert acc r.
  induction l as [|[[u v] w] l IH]; intros acc r Hl.
  - exists r. split; [done|by left].
  - destruct (Hl u v w) as [Hu Hw]; [by left|].
    assert (∀ u v w, (u, v, w) ∈ l → u < n ∧ w < n) as Hl'
      by (intros u' v' w' ?; apply (Hl u' v' w'); by right).
    cbn [foldl].
    destruct (visit_step n m tc0 prev out acc r u v w Htc0 Hu Hw)
      as [[-> ->]|[-> ->]]; [by apply IH|].
    destruct (IH (acc ++ [(u, w)]) 1%Z Hl') as (r' & -> & Hr').
    exists r'. split; [done|]. right.
    rewrite length_app in Hr'. simpl in Hr'.
    destruct Hr' as [[-> ->]|[-> ?]]; (split; [done|]).
    + rewrite length_app. simpl. lia.
    + lia.
Qed.

(** One turn of the [while] loop, as a function of the closure matrix. *)
Lemma pass_news n m st :
  square n (transitiveClosure st) → square n (previous st) →
  ∃ r, pass n m st
       = Closure (mark (transitiveClosure st) (news n m (transitiveClosure st)))
           (copy_matrix n (transitiveClosure st) (previous st)) r
           (emitted st ++ news n m (transitiveClosure st))
     ∧ ((r = 0%Z ∧ news n m (transitiveClosure st) = [])
        ∨ (r = 1%Z ∧ news n m (transitiveClosure st) ≠ [])).
Proof.
  intros Htc Hprev. unfold pass. rewrite sweep_flat.
  destruct (copy_matrix_spec n (transitiveClosure st) (previous st) Hprev)
    as [_ Hcopy].
  destruct (visit_discover n m (transitiveClosure st)
              (copy_matrix n (transitiveClosure st) (previous st))
              (emitted st) (triples n) [] 0%Z Htc) as (r & Hrun & Hr).
  { intros u v w ?%elem_of_triples. lia. }
  rewrite app_nil_r in Hrun. change (mark (transitiveClosure st) []) with
    (transitiveClosure st) in Hrun.
  assert (foldl (discover_step (truthy m)
            (truthy (copy_matrix n (transitiveClosure st) (previous st)))
            (truthy (transitiveClosure st))) [] (triples n)
          = news n m (transitiveClosure st)) as Hnews.
  { apply discover_ext; [|done]. intros u w Hu Hw. unfold truthy.
    by rewrite Hcopy. }
  rewrite Hnews in Hrun, Hr. exists r. split; [done|].
  destruct Hr as [[-> ?]|[-> Hlen]]; [by left|right].
  split; [done|]. intros Hnil. rewrite Hnil in Hlen. simpl in Hlen. lia.
Qed.

(** What the pairs of one turn are. *)
Lemma news_NoDup n m tc : NoDup (news n m tc).
Proof. apply discover_fold_NoDup, NoDup_nil_2. Qed.

Lemma news_sound n m tc a b :
  (a, b) ∈ news n m tc →
  a < n ∧ b < n ∧ a ≠ b ∧ truthy tc a b = false
  ∧ ∃ v, v < n ∧ truthy tc a v = true ∧ truthy m v b = true.
Proof.
  intros [Hnil|(v & Hin & ? & ? & ? & ?)]%discover_fold_sound.
  - by apply elem_of_nil in Hnil.
  - simpl in *. apply elem_of_triples in Hin as (? & ? & ?).
    repeat split; try done. by exists v.
Qed.

Lemma news_complete n m tc u v w :
  u < n → v < n → w < n →
  truthy tc u v = true → truthy m v w = true → u ≠ w →
  truthy tc u w = true ∨ (u, w) ∈ news n m tc.
Proof.
  intros Hu Hv Hw. apply discover_fold_complete.
  apply elem_of_triples. done.
Qed.

Lemma news_nil_closed n m tc : news n m tc = [] → closed n m tc.
Proof.
  intros Hnil u v w Hu Hv Hw Huv Hvw Hne.
  destruct (news_complete n m tc u v w) as [?|Hin]; try done.
  rewrite Hnil in Hin. by apply elem_of_nil in Hin.
Qed.

Lemma closed_news_nil n m tc : closed n m tc → news n m tc = [].
Proof.
  intros Hclosed. destruct (news n m tc) as [|[a b] l] eqn:Hnews; [done|].
  destruct (news_sound n m tc a b) as (Ha & Hb & Hne & Hf & v & Hv & Hav & Hvb).
  { rewrite Hnews. by left. }
  rewrite (Hclosed a v b) in Hf; done.
Qed.

Section one_turn.
Variables (n : nat) (m : matrix) (st : closure).
Hypothesis Hshape : shaped n st.

Lemma pass_shaped : shaped n (pass n m st).
Proof.
  destruct Hshape as [Htc Hprev].
  destruct (pass_news n m st Htc Hprev) as (r & -> & _). split; simpl.
  - by apply mark_square.
  - by apply copy_matrix_spec.
Qed.

Lemma pass_emitted :
  emitted (pass n m st) = emitted st ++ news n m (transitiveClosure st).
Proof.
  destruct Hshape as [Htc Hprev].
  by destruct (pass_news n m st Htc Hprev) as (r & -> & _).
Qed.

Lemma pass_truthy a b :
  a < n → b < n →
  truthy (transitiveClosure (pass n m st)) a b
  = truthy (transitiveClosure st) a b
    || bool_decide ((a, b) ∈ news n m (transitiveClosure st)).
Proof.
  destruct Hshape as [Htc Hprev]. intros Ha Hb.
  destruct (pass_news n m st Htc Hprev) as (r & -> & _). simpl.
  by apply (truthy_mark n).
Qed.

Lemma pass_repeat :
  (repeat (pass n m st) = 0%Z ∧ news n m (transitiveClosure st) = [])
  ∨ (repeat (pass n m st) = 1%Z ∧ news n m (transitiveClosure st) ≠ []).
Proof.
  destruct Hshape as [Htc Hprev].
  by destruct (pass_news n m st Htc Hprev) as (r & -> & Hr).
Qed.

(** A turn that adds nothing leaves the closure matrix as it was. *)
Lemma pass_idle :
  news n m (transitiveClosure st) = [] →
  transitiveClosure (pass n m st) = transitiveClosure st
  ∧ emitted (pass n m st) = emitted st ∧ repeat (pass n m st) = 0%Z.
Proof.
  destruct Hshape as [Htc Hprev]. intros Hnil.
  destruct (pass_news n m st Htc Hprev) as (r & -> & Hr). simpl.
  rewrite Hnil, app_nil_r. repeat split; try done.
  destruct Hr as [[-> _]|[_ ?]]; done.
Qed.

Lemma pass_monotone a b :
  a < n → b < n →
  truthy (transitiveClosure st) a b = true →
  truthy (transitiveClosure (pass n m st)) a b = true.
Proof. intros Ha Hb Ht. by rewrite pass_truthy, Ht. Qed.
End one_turn.

Lemma closure_start_shaped n m : shaped n (closure_start n m).
Proof.
  split; simpl; [|apply createMatrix_square].
  apply copy_matrix_spec, createMatrix_square.
Qed.

Lemma closure_start_truthy n m a b :
  a < n → b < n →
  truthy (transitiveClosure (closure_start n m)) a b = truthy m a b.
Proof.
  intros Ha Hb. unfold truthy. simpl.
  destruct (copy_matrix_spec n m (createMatrix n) (createMatrix_square n))
    as [_ ->]; done.
Qed.

Lemma rounds_S k n m : rounds (S k) n m = pass n m (rounds k n m).
Proof. done. Qed.

Lemma rounds_shaped k n m : shaped n (rounds k n m).
Proof.
  induction k as [|k IH]; [apply closure_start_shaped|].
  rewrite rounds_S. by apply pass_shaped.
Qed.

(** ** Closure Engine: the rows fill up, so the loop stops *)

Lemma filter_length_lt {A : Type} (P Q : A → Prop)
    `{∀ x, Decision (P x)} `{∀ x, Decision (Q x)} (l : list A) x :
  (∀ y, y ∈ l → P y → Q y) → x ∈ l → Q x → ¬ P x →
  length (filter P l) < length (filter Q l).
Proof.
  intros Hsub Hx HQ HP.
  assert (∀ k : list A, (∀ y, y ∈ k → P y → Q y) →
            length (filter P k) ≤ length (filter Q k)) as Hle.
  { induction k as [|y k IH]; intros Hk; [done|].
    rewrite !filter_cons.
    assert (length (filter P k) ≤ length (filter Q k)) as ?
      by (apply IH; intros z ?; apply Hk; by right).
    destruct (decide (P y)) as [Hy|Hy].
    - apply Hk in Hy; [|by left]. rewrite decide_True by done. simpl. lia.
    - destruct (decide (Q y)); simpl; lia. }
  induction l as [|y l IH]; [by apply elem_of_nil in Hx|].
  rewrite !filter_cons.
  assert (∀ z, z ∈ l → P z → Q z) as Hsub' by (intros z ?; apply Hsub; by right).
  apply elem_of_cons in Hx as [<-|Hx].
  - rewrite decide_False, decide_True by done. simpl.
    specialize (Hle l Hsub'). lia.
  - specialize (IH Hsub' Hx).
    destruct (decide (P y)) as [Hy|Hy].
    + apply Hsub in Hy; [|by left]. rewrite decide_True by done. simpl. lia.
    + destruct (decide (Q y)); simpl; lia.
Qed.

Lemma filter_length_pos {A : Type} (P : A → Prop) `{∀ x, Decision (P x)}
    (l : list A) x :
  x ∈ l → P x → 0 < length (filter P l).
Proof.
  intros Hx HP. assert (x ∈ filter P l) as Hin by (by apply list_elem_of_filter).
  destruct (filter P l); [by apply elem_of_nil in Hin|simpl; lia].
Qed.

Section rows.
Variables (n : nat) (m : matrix).

(** A row that gains a cell in some turn gained one in the turn before. *)
Lemma news_persist st u w :
  shaped n st →
  (u, w) ∈ news n m (transitiveClosure (pass n m st)) →
  ∃ w', (u, w') ∈ news n m (transitiveClosure st).
Proof.
  intros Hst (Hu & Hw & Hne & Hf & v & Hv & Huv & Hvw)%news_sound.
  rewrite pass_truthy in Huv, Hf by done.
  apply orb_true_iff in Huv as [Huv|Huv%bool_decide_eq_true]; [|by exists v].
  apply orb_false_iff in Hf as [Hf Hnot%bool_decide_eq_false].
  destruct (news_complete n m (transitiveClosure st) u v w) as [Ht|Hin];
    [done..|congruence|by exists w].
Qed.

Lemma news_row_grows st u w :
  shaped n st →
  (u, w) ∈ news n m (transitiveClosure st) →
  row_count n (transitiveClosure st) u
  < row_count n (transitiveClosure (pass n m st)) u.
Proof.
  intros Hst Hin.
  pose proof Hin as (Hu & Hw & Hne & Hf & _)%news_sound.
  unfold row_count. apply (filter_length_lt _ _ _ w).
  - intros y Hy%elem_of_seq. apply pass_monotone; [done..|lia].
  - apply elem_of_seq. lia.
  - rewrite pass_truthy by done. apply orb_true_iff. right.
    by apply bool_decide_eq_true.
  - by rewrite Hf.
Qed.

Lemma news_row_room tc u w :
  (u, w) ∈ news n m tc → 0 < row_count n tc u < n.
Proof.
  intros (Hu & Hw & Hne & Hf & v & Hv & Huv & _)%news_sound.
  unfold row_count. split.
  - apply (filter_length_pos _ _ v); [apply elem_of_seq; lia|done].
  - pose proof (length_filter_lt (λ w, truthy tc u w = true) (seq 0 n) w)
      as Hlt.
    rewrite length_seq in Hlt. apply Hlt; [apply elem_of_seq; lia|by rewrite Hf].
Qed.

(** A row still growing in turn [k + 1] holds more than [k] true cells. *)
Lemma news_depth k u w :
  (u, w) ∈ news n m (transitiveClosure (rounds k n m)) →
  k < row_count n (transitiveClosure (rounds k n m)) u.
Proof.
  revert w. induction k as [|k IH]; intros w Hin.
  - by apply news_row_room in Hin as [? _].
  - rewrite rounds_S in Hin |- *.
    destruct (news_persist _ _ _ (rounds_shaped k n m) Hin) as [w' Hin'].
    pose proof (IH _ Hin').
    pose proof (news_row_grows _ _ _ (rounds_shaped k n m) Hin'). lia.
Qed.

(** After [n - 1] turns no row can grow any more. *)
Lemma rounds_settled k :
  n ≤ S k → news n m (transitiveClosure (rounds k n m)) = [].
Proof.
  intros Hk.
  destruct (news n m (transitiveClosure (rounds k n m))) as [|[u w] l] eqn:Hnews;
    [done|].
  assert ((u, w) ∈ news n m (transitiveClosure (rounds k n m))) as Hin
    by (rewrite Hnews; by left).
  pose proof (news_depth _ _ _ Hin). apply news_row_room in Hin. lia.
Qed.

Lemma while_repeat_done fuel st :
  repeat st = 0%Z → while_repeat fuel n m st = Some st.
Proof. intros Hr. destruct fuel; simpl; by rewrite decide_True. Qed.

Lemma while_repeat_turn fuel st :
  repeat st ≠ 0%Z →
  while_repeat (S fuel) n m st = while_repeat fuel n m (pass n m st).
Proof. intros Hr. simpl. by rewrite decide_False. Qed.

(** If some number of turns within the fuel clears the flag, the loop
    returns, after at most that many turns. *)
Lemma while_repeat_reaches j fuel st :
  j ≤ fuel → repeat (Nat.iter j (pass n m) st) = 0%Z →
  ∃ i, i ≤ j ∧ while_repeat fuel n m st = Some (Nat.iter i (pass n m) st).
Proof.
  revert fuel st. induction j as [|j IH]; intros fuel st Hj Hr.
  - exists 0. split; [done|]. by apply while_repeat_done.
  - destruct (decide (repeat st = 0%Z)) as [Hst|Hst].
    { exists 0. split; [lia|]. by apply while_repeat_done. }
    destruct fuel as [|fuel]; [lia|].
    rewrite while_repeat_turn by done.
    rewrite Nat.iter_succ_r in Hr.
    destruct (IH fuel (pass n m st)) as (i & Hi & ->); [lia|done|].
    exists (S i). split; [lia|]. by rewrite Nat.iter_succ_r.
Qed.

(** A loop that returns has run some turns, and the last cleared the flag. *)
Lemma while_repeat_result fuel st st' :
  while_repeat fuel n m st = Some st' →
  ∃ i, i ≤ fuel ∧ st' = Nat.iter i (pass n m) st ∧ repeat st' = 0%Z.
Proof.
  revert st. induction fuel as [|fuel IH]; intros st Hrun.
  - simpl in Hrun. case_decide; [|done]. simplify_eq. by exists 0.
  - destruct (decide (repeat st = 0%Z)) as [Hst|Hst].
    + rewrite while_repeat_done in Hrun by done. simplify_eq.
      exists 0. split; [lia|done].
    + rewrite while_repeat_turn in Hrun by done.
      apply IH in Hrun as (i & Hi & -> & Hr).
      exists (S i). split; [lia|]. by rewrite Nat.iter_succ_r.
Qed.
End rows.

(** ** Closure Engine: invariants of the whole run *)

Lemma binary_mget (m : matrix) a b :
  binary m → mget m a b = 0%Z ∨ mget m a b = 1%Z.
Proof.
  intros Hbin. unfold mget, cell.
  destruct (m !! a) as [row|] eqn:Hrow; simpl; [|by left].
  destruct (row !! b) as [x|] eqn:Hx; simpl; [|by left].
  unfold binary in Hbin. rewrite Forall_lookup in Hbin.
  specialize (Hbin _ _ Hrow). rewrite Forall_lookup in Hbin. by eapply Hbin.
Qed.

Lemma closure_start_emitted n m :
  emitted (closure_start n m)
  = filter (λ p, mget (transitiveClosure (closure_start n m)) p.1 p.2 = 1%Z)
      (pairs n).
Proof. simpl. by rewrite emit_initial_filter. Qed.

Lemma closure_start_mget n m a b :
  a < n → b < n → mget (transitiveClosure (closure_start n m)) a b = mget m a b.
Proof.
  intros Ha Hb. simpl.
  by destruct (copy_matrix_spec n m (createMatrix n) (createMatrix_square n))
    as [_ ->].
Qed.

Section run.
Variables (n : nat) (m : matrix).

(** Every printed pair is a true cell of the closure matrix. *)
Lemma rounds_emitted_truthy k a b :
  (a, b) ∈ emitted (rounds k n m) →
  a < n ∧ b < n ∧ truthy (transitiveClosure (rounds k n m)) a b = true.
Proof.
  induction k as [|k IH].
  - unfold rounds. simpl Nat.iter. rewrite closure_start_emitted.
    intros [Hone [Ha Hb]%elem_of_pairs]%list_elem_of_filter.
    cbn [fst snd] in Hone. repeat split; try done.
    unfold truthy. apply bool_decide_eq_true. rewrite Hone. done.
  - rewrite rounds_S, pass_emitted by apply rounds_shaped.
    intros [Hin|Hin]%elem_of_app.
    + destruct (IH Hin) as (Ha & Hb & Ht). repeat split; try done.
      apply pass_monotone; [apply rounds_shaped|done..].
    + pose proof Hin as (Ha & Hb & _)%news_sound. repeat split; try done.
      rewrite pass_truthy by (done || apply rounds_shaped).
      apply orb_true_iff. right. by apply bool_decide_eq_true.
Qed.

(** On a 0/1 matrix every true cell has been printed. *)
Lemma rounds_truthy_emitted k a b :
  binary m → a < n → b < n →
  truthy (transitiveClosure (rounds k n m)) a b = true →
  (a, b) ∈ emitted (rounds k n m).
Proof.
  intros Hbin Ha Hb. induction k as [|k IH].
  - unfold rounds. simpl Nat.iter. rewrite closure_start_emitted.
    intros Ht. apply list_elem_of_filter. split; [|by apply elem_of_pairs].
    cbn [fst snd]. unfold truthy in Ht. apply bool_decide_eq_true in Ht.
    rewrite closure_start_mget in Ht |- * by done.
    destruct (binary_mget m a b Hbin); [done|lia].
  - rewrite rounds_S, pass_emitted, pass_truthy by (done || apply rounds_shaped).
    intros [Ht|Hin%bool_decide_eq_true]%orb_true_iff; apply elem_of_app;
      [left; by apply IH|by right].
Qed.

Lemma rounds_NoDup k : NoDup (emitted (rounds k n m)).
Proof.
  induction k as [|k IH].
  - unfold rounds. simpl Nat.iter. rewrite closure_start_emitted.
    apply NoDup_filter, NoDup_pairs.
  - rewrite rounds_S, pass_emitted by apply rounds_shaped.
    apply NoDup_app. split; [done|]. split; [|apply news_NoDup].
    intros [a b] Hold Hnew.
    apply rounds_emitted_truthy in Hold as (_ & _ & Ht).
    apply news_sound in Hnew as (_ & _ & _ & Hf & _). congruence.
Qed.

(** What is printed after the first loop never lies on the diagonal. *)
Lemma rounds_later k :
  ∃ later, emitted (rounds k n m) = emitted (closure_start n m) ++ later
           ∧ Forall (λ p, p.1 ≠ p.2) later.
Proof.
  induction k as [|k (later & IH & Hoff)].
  - exists []. by rewrite app_nil_r.
  - rewrite rounds_S, pass_emitted, IH by apply rounds_shaped.
    exists (later ++ news n m (transitiveClosure (rounds k n m))).
    split; [by rewrite app_assoc|]. apply Forall_app. split; [done|].
    apply Forall_forall. intros [a b] Hin.
    by apply news_sound in Hin as (_ & _ & ? & _).
Qed.

(** Every true cell is a walk; a true diagonal cell is a self-loop of the
    adjacency matrix. *)
Lemma rounds_sound k a b :
  a < n → b < n →
  truthy (transitiveClosure (rounds k n m)) a b = true →
  walk n m a b ∧ (a = b → edge n m a a).
Proof.
  revert a b. induction k as [|k IH]; intros a b Ha Hb.
  - unfold rounds. simpl Nat.iter. rewrite closure_start_truthy by done.
    intros Ht%bool_decide_eq_true.
    split; [by apply tc_once|by intros <-].
  - rewrite rounds_S, pass_truthy by (done || apply rounds_shaped).
    intros [Ht|Hin%bool_decide_eq_true]%orb_true_iff; [by apply IH|].
    apply news_sound in Hin as (_ & _ & Hne & _ & v & Hv & Hav & Hvb).
    split; [|done].
    eapply tc_r; [by apply IH|]. apply bool_decide_eq_true in Hvb. done.
Qed.

Lemma rounds_contains k a b :
  a < n → b < n → truthy m a b = true →
  truthy (transitiveClosure (rounds k n m)) a b = true.
Proof.
  intros Ha Hb Ht. induction k as [|k IH].
  - unfold rounds. simpl Nat.iter. by rewrite closure_start_truthy.
  - rewrite rounds_S. apply pass_monotone; [apply rounds_shaped|done..].
Qed.

Lemma walk_source u w : walk n m u w → u < n.
Proof. intros Hw. induction Hw as [x y (? & _)|x y z (? & _) _ _]; done. Qed.

(** In a closed matrix that holds the edges, every walk between two
    different cities is a true cell. *)
Lemma closed_walk tc u w :
  closed n m tc →
  (∀ a b, a < n → b < n → truthy m a b = true → truthy tc a b = true) →
  walk n m u w → u ≠ w → truthy tc u w = true.
Proof.
  intros Hclosed Hedges Hwalk. revert w Hwalk. refine (tc_ind_r _ u _ _).
  - intros w (Hu & Hw & He) _. apply Hedges; [done..|].
    by apply bool_decide_eq_true.
  - intros v w Huv (Hv & Hw & He) IH Hne.
    pose proof (walk_source _ _ Huv) as Hu.
    assert (truthy m v w = true) as Hvw by (by apply bool_decide_eq_true).
    destruct (decide (u = v)) as [->|Huv'].
    + by apply Hedges.
    + apply (Hclosed u v w); try done. by apply IH.
Qed.

(** The locals the function ends with: some turn cleared the flag, and
    that turn found the matrix already closed. *)
Lemma calculateTransitiveClosure_result fuel st :
  calculateTransitiveClosure fuel n m = Some st →
  ∃ k, S k ≤ fuel ∧ st = rounds (S k) n m
       ∧ transitiveClosure st = transitiveClosure (rounds k n m)
       ∧ emitted st = emitted (rounds k n m)
       ∧ closed n m (transitiveClosure st).
Proof.
  intros (i & Hi & -> & Hr)%while_repeat_result.
  destruct i as [|k]; [done|]. exists k. split; [done|].
  fold (rounds (S k) n m) in Hr |- *. rewrite rounds_S in Hr |- *.
  destruct (pass_repeat n m _ (rounds_shaped k n m)) as [[_ Hnil]|[Hone _]];
    [|rewrite Hr in Hone; done].
  destruct (pass_idle n m _ (rounds_shaped k n m) Hnil) as (-> & -> & _).
  repeat split; try done. by apply news_nil_closed.
Qed.

(** The loop returns once the fuel covers [n] turns (one turn when [n] is 0). *)
Lemma calculateTransitiveClosure_total fuel :
  Nat.max 1 n ≤ fuel →
  ∃ k, k ≤ Nat.max 1 n
       ∧ calculateTransitiveClosure fuel n m = Some (rounds k n m).
Proof.
  intros Hfuel. unfold calculateTransitiveClosure.
  apply while_repeat_reaches; [done|].
  destruct (Nat.max 1 n) as [|k] eqn:Hmax; [lia|].
  fold (rounds (S k) n m). rewrite rounds_S.
  apply pass_idle; [apply rounds_shaped|]. apply rounds_settled. lia.
Qed.
End run.

(** A walk, spelled out: a list of two cities or more, from [u] to [w],
    with an edge between every two neighbours. *)
Lemma walk_vertices n m u w :
  walk n m u w ↔
  ∃ l, 1 < length l ∧ head l = Some u ∧ last l = Some w
       ∧ ∀ i a b, l !! i = Some a → l !! S i = Some b → edge n m a b.
Proof. apply tc_list. Qed.

Lemma walk_target n m u w : walk n m u w → w < n.
Proof.
  intros Hw. induction Hw as [x y (_ & ? & _)|x y z _ _ IH]; done.
Qed.

Lemma filter_eq_once {A : Type} `{EqDecision A} (l : list A) x :
  NoDup l → x ∈ l → length (filter (λ y, y = x) l) = 1.
Proof.
  induction l as [|y l IH]; intros Hnd Hx; [by apply elem_of_nil in Hx|].
  apply NoDup_cons in Hnd as [Hy Hnd]. rewrite filter_cons.
  apply elem_of_cons in Hx as [->|Hx].
  - rewrite decide_True by done. simpl. f_equal.
    destruct (filter (λ y0, y0 = y) l) as [|z k] eqn:Hf; [done|].
    assert (z ∈ filter (λ y0, y0 = y) l) as Hz by (rewrite Hf; by left).
    apply list_elem_of_filter in Hz as [-> ?]. done.
  - rewrite decide_False by (intros ->; done). by apply IH.
Qed.

Lemma mget_mset_cases (m : matrix) i j x :
  mget (mset m i j x) i j = x ∨ mget (mset m i j x) i j = mget m i j.
Proof.
  unfold mget, cell, mset. rewrite list_lookup_alter, decide_True by done.
  destruct (m !! i) as [row|]; simpl; [|by right].
  destruct (decide (j < length row)).
  - left. by rewrite list_lookup_insert_eq.
  - right. by rewrite list_insert_ge by lia.
Qed.

(** A loop-body step leaves a cell alone or turns a 0 into a 1. *)
Lemma visit_cell m st t i j :
  mget (transitiveClosure (visit m st t)) i j = mget (transitiveClosure st) i j
  ∨ (mget (transitiveClosure st) i j = 0%Z
     ∧ mget (transitiveClosure (visit m st t)) i j = 1%Z).
Proof.
  destruct t as [[u v] w]. unfold visit, relax.
  repeat case_decide; try (by left). simpl.
  destruct (decide ((i, j) = (u, w))) as [[= -> ->]|Hne].
  - destruct (mget_mset_cases (transitiveClosure st) u w 1) as [->| ->];
      [right; tauto|by left].
  - left. by rewrite mget_mset_ne.
Qed.

(** A loop-body step never clears a cell. *)
Lemma visit_keeps m st t i j :
  mget (transitiveClosure st) i j ≠ 0%Z →
  mget (transitiveClosure (visit m st t)) i j ≠ 0%Z.
Proof.
  destruct t as [[u v] w]. intros Hij. unfold visit, relax.
  repeat case_decide; try done. simpl.
  destruct (decide ((i, j) = (u, w))) as [[= -> ->]|Hne]; [tauto|].
  by rewrite mget_mset_ne.
Qed.

Lemma visits_keep m l st i j :
  mget (transitiveClosure st) i j ≠ 0%Z →
  mget (transitiveClosure (foldl (visit m) st l)) i j ≠ 0%Z.
Proof.
  revert st. induction l as [|t l IH]; intros st Hij; [done|].
  simpl. by apply IH, visit_keeps.
Qed.

Lemma pass_keeps n m st i j :
  mget (transitiveClosure st) i j ≠ 0%Z →
  mget (transitiveClosure (pass n m st)) i j ≠ 0%Z.
Proof. intros Hij. unfold pass. rewrite sweep_flat. by apply visits_keep. Qed.

(** ** Closure Engine: what is printed, in terms of walks *)

Lemma computeClosure_walks fuel n m :
  square n m → binary m → Nat.max 1 n ≤ fuel →
  ∃ out, computeClosure fuel n m = Some out
    ∧ ∀ u w, (u, w) ∈ out ↔ walk n m u w ∧ (u = w → edge n m u u).
Proof.
  intros _ Hbin Hfuel.
  destruct (calculateTransitiveClosure_total n m fuel Hfuel) as (k0 & _ & Hrun).
  destruct (calculateTransitiveClosure_result n m fuel _ Hrun)
    as (k & _ & _ & Htc & Hout & Hclosed).
  exists (emitted (rounds k0 n m)). unfold computeClosure. rewrite Hrun.
  split; [done|]. rewrite Hout, Htc in *. clear Hrun Hout Htc k0.
  intros u w. split.
  - intros (Hu & Hw & Ht)%rounds_emitted_truthy. by apply (rounds_sound n m k).
  - intros [Hwalk Hloop].
    pose proof (walk_source _ _ _ _ Hwalk) as Hu.
    pose proof (walk_target _ _ _ _ Hwalk) as Hw.
    apply rounds_truthy_emitted; try done.
    destruct (decide (u = w)) as [<-|Hne].
    + apply rounds_contains; try done.
      destruct (Hloop eq_refl) as (_ & _ & ?). by apply bool_decide_eq_true.
    + apply (closed_walk n m); try done.
      intros a b Ha Hb. by apply rounds_contains.
Qed.

(** ** The closure as the specification words it: agreement with the code *)

Lemma listed_app l k a b : listed (l ++ k) a b = listed l a b || listed k a b.
Proof.
  unfold listed. destruct (decide ((a, b) ∈ l)) as [Hl|Hl].
  - rewrite !(bool_decide_eq_true_2 (_ ∈ l)) by done.
    apply bool_decide_eq_true_2, elem_of_app. by left.
  - rewrite (bool_decide_eq_false_2 (_ ∈ l)) by done. simpl.
    apply bool_decide_ext. rewrite elem_of_app. tauto.
Qed.

Lemma filter_ext_in {A : Type} (P Q : A → Prop)
    `{∀ x, Decision (P x)} `{∀ x, Decision (Q x)} (l : list A) :
  (∀ x, x ∈ l → P x ↔ Q x) → filter P l = filter Q l.
Proof.
  induction l as [|x l IH]; intros Hl; [done|].
  rewrite !filter_cons, IH by (intros y ?; apply Hl; by right).
  destruct (decide (P x)) as [Hx|Hx].
  - rewrite decide_True; [done|]. by apply Hl; [left|].
  - rewrite decide_False; [done|]. intros ?. apply Hx. by apply Hl; [left|].
Qed.

Lemma spec_first_emitted n m :
  binary m → emitted (closure_start n m) = spec_first n m.
Proof.
  intros Hbin. rewrite closure_start_emitted. unfold spec_first.
  apply filter_ext_in. intros [a b] [Ha Hb]%elem_of_pairs.
  cbn [fst snd]. rewrite closure_start_mget by done. unfold truthy.
  rewrite bool_decide_eq_true. destruct (binary_mget m a b Hbin); lia.
Qed.

Lemma spec_first_listed n m a b :
  a < n → b < n → listed (spec_first n m) a b = truthy m a b.
Proof.
  intros Ha Hb. unfold listed, spec_first.
  destruct (truthy m a b) eqn:Ht.
  - apply bool_decide_eq_true_2, list_elem_of_filter.
    split; [done|by apply elem_of_pairs].
  - apply bool_decide_eq_false_2. intros [Ht' _]%list_elem_of_filter.
    cbn [fst snd] in Ht'. congruence.
Qed.

(** The loop of the code and the rounds of the specification walk in
    step: the printed list is the known list, and a cell is true exactly
    when its pair is listed. *)
Lemma spec_simulation fuel n m st known :
  shaped n st → emitted st = known →
  (∀ a b, a < n → b < n → truthy (transitiveClosure st) a b = listed known a b) →
  repeat st ≠ 0%Z →
  emitted <$> while_repeat fuel n m st = spec_rounds fuel n m known.
Proof.
  revert st known. induction fuel as [|fuel IH]; intros st known Hst Hout Hrel Hr.
  - simpl. by rewrite decide_False.
  - rewrite while_repeat_turn by done. simpl.
    assert (discover n (truthy m) (listed known) (listed known)
            = news n m (transitiveClosure st)) as ->.
    { symmetry. by apply discover_ext. }
    destruct (pass_repeat n m st Hst) as [[Hz Hnil]|[Hone Hnew]].
    + rewrite Hnil. rewrite while_repeat_done by done. simpl.
      by rewrite pass_emitted, Hnil, app_nil_r, Hout.
    + destruct (news n m (transitiveClosure st)) as [|p new] eqn:Hnews; [done|].
      apply IH.
      * by apply pass_shaped.
      * by rewrite pass_emitted, Hnews, Hout.
      * intros a b Ha Hb.
        by rewrite pass_truthy, listed_app, Hrel, Hnews.
      * rewrite Hone. done.
Qed.

Lemma while_repeat_more fuel fuel' n m st st' :
  fuel ≤ fuel' → while_repeat fuel n m st = Some st' →
  while_repeat fuel' n m st = Some st'.
Proof.
  revert fuel' st. induction fuel as [|fuel IH]; intros fuel' st Hle Hrun.
  - simpl in Hrun. case_decide; [|done]. simplify_eq.
    by apply while_repeat_done.
  - destruct (decide (repeat st = 0%Z)) as [Hst|Hst].
    + rewrite while_repeat_done in Hrun |- * by done. done.
    + destruct fuel' as [|fuel']; [lia|].
      rewrite while_repeat_turn in Hrun |- * by done. apply IH; [lia|done].
Qed.

(** ** Path Finder and Closure Engine side by side *)

Lemma unvisited_replicate n : unvisited (replicate n 0%Z) = n.
Proof.
  unfold unvisited. induction n as [|n IH]; [done|].
  change (replicate (S n) 0%Z) with (0%Z :: replicate n 0%Z).
  rewrite filter_cons, decide_True by done. simpl. by rewrite IH.
Qed.

(** With nothing marked, the steps of the search are the edges. *)
Lemma rtc_hop_walk n m s d :
  s < n → s ≠ d → rtc (hop m (replicate n 0%Z)) s d ↔ walk n m s d.
Proof.
  intros Hs Hne. split.
  - intros Hrtc.
    cut (d < n ∧ (d = s ∨ walk n m s d)). { intros [_ [->|]]; done. }
    clear Hne. revert d Hrtc. refine (rtc_ind_r _ s _ _).
    + split; [done|by left].
    + intros y z _ [He Hz] [Hy IH].
      apply lookup_replicate in Hz as [_ Hz]. split; [done|right].
      assert (edge n m y z) as Hyz by done.
      destruct IH as [->|IH]; [by apply tc_once|by eapply tc_r].
  - intros Hwalk. apply tc_rtc. eapply tc_congruence with (f := id); [|done].
    intros u w (Hu & Hw & He). split; [done|]. by apply lookup_replicate_2.
Qed.

(** * The claims *)

(** ** Path Finder *)

(** C5.  For every adjacency matrix and every in-range city [s], the search
    from [s] to [s] succeeds at once (a single activation of [findPath]
    suffices, and deeper fuel changes nothing) and the path it prints is
    the single-city path [[s]], whatever the matrix holds. *)
Theorem findPath_same_city n m buf s :
  s < n → length buf = n →
  ∃ st, (∀ fuel, findPath (S fuel) s s 0 (search_start n m buf) = Some (1%Z, st))
        ∧ stdout st = [YesPath [s]]
        ∧ ∀ fuel, stdout <$> implementR (S fuel) n m buf s s
                  = Some [YesPath [s]].
Proof.
  intros Hs Hbuf.
  assert (∃ st, (∀ fuel, findPath (S fuel) s s 0 (search_start n m buf)
                         = Some (1%Z, st))
                ∧ stdout st = [YesPath [s]]) as (st & Hrun & Hout).
  { eexists. split.
    - intros fuel. simpl. unfold store_visited, store_path. simpl.
      rewrite length_replicate, decide_True by done. simpl.
      rewrite decide_True by lia. simpl.
      rewrite decide_True by done. reflexivity.
    - simpl. destruct buf; [simpl in Hbuf; lia|done]. }
  exists st. repeat split; try done.
  intros fuel. unfold implementR. rewrite Hrun. simpl. by rewrite Hout.
Qed.

Lemma findPath_same_city_witness :
  ∃ st, (∀ fuel, findPath (S fuel) 1 1 0 (search_start 2 [[0;1];[0;0]]%Z [5;5])
                 = Some (1%Z, st))
        ∧ stdout st = [YesPath [1]]
        ∧ ∀ fuel, stdout <$> implementR (S fuel) 2 [[0;1];[0;0]]%Z [5;5] 1 1
                  = Some [YesPath [1]].
Proof. apply (findPath_same_city 2 [[0;1];[0;0]]%Z [5;5] 1); [lia|reflexivity]. Defined.

(** C8.  A call of [findPath] that returns leaves the adjacency matrix
    (and [N]) exactly as it found them, whether it answers 1 or 0; and a
    call as the program makes them (a square matrix, [visited] of size [N]
    with the source unmarked, room left in [path]) does return. *)
Theorem findPath_keeps_matrix :
  (∀ fuel source destination pathIndex st r st',
     findPath fuel source destination pathIndex st = Some (r, st') →
     N st' = N st ∧ cityMatrix st' = cityMatrix st)
  ∧ (∀ fuel source destination pathIndex st,
       square (N st) (cityMatrix st) → length (visited st) = N st →
       visited st !! source = Some 0%Z →
       unvisited (visited st) ≤ fuel →
       pathIndex + unvisited (visited st) ≤ length (path st) →
       ∃ r st', findPath fuel source destination pathIndex st = Some (r, st')
                ∧ (r = 0%Z ∨ r = 1%Z)
                ∧ N st' = N st ∧ cityMatrix st' = cityMatrix st).
Proof.
  split.
  - intros. by eapply findPath_frame.
  - intros fuel source destination pathIndex st Hsq Hlen Hsrc Hfuel Hroom.
    destruct (findPath_spec (N st) (cityMatrix st) destination
                (length (path st)) Hsq fuel pathIndex (visited st)
                Hlen Hfuel Hroom source st)
      as (r & st' & Hrun & HN & HM & _ & Hr); try done.
    exists r, st'. repeat split; try done.
    destruct Hr as [(-> & _)|(-> & _)]; [by left|by right].
Qed.

Lemma findPath_keeps_matrix_witness :
  ∃ r st', findPath 3 0 2 0 (search_start 3 chain3 [0;0;0]) = Some (r, st')
           ∧ (r = 0%Z ∨ r = 1%Z) ∧ N st' = 3 ∧ cityMatrix st' = chain3.
Proof.
  apply (proj2 findPath_keeps_matrix 3 0 2 0 (search_start 3 chain3 [0;0;0])).
  - split; [reflexivity|]. repeat constructor.
  - reflexivity.
  - reflexivity.
  - vm_compute. lia.
  - vm_compute. lia.
Defined.

(** C9.  Whenever [findPath] returns 0, [visited] comes back with the entry
    of [source] cleared and every other entry as at entry; so, entered
    with [source] unmarked (as at both call sites: the [calloc]ed array of
    [implementR] and the guard [!visited[i]] of the loop), the array is
    restored exactly to its value at entry. *)
Theorem findPath_failure_restores fuel source destination pathIndex st st' :
  findPath fuel source destination pathIndex st = Some (0%Z, st') →
  visited st' = <[source:=0%Z]> (visited st)
  ∧ (visited st !! source = Some 0%Z → visited st' = visited st).
Proof.
  intros Hrun. apply findPath_failure_visited in Hrun. split; [done|].
  intros Hsrc. rewrite Hrun. by apply list_insert_id.
Qed.

Lemma findPath_failure_restores_witness :
  ∃ st', findPath 3 0 2 0 (search_start 3 [[0;1;0];[1;0;0];[0;0;0]]%Z [0;0;0])
         = Some (0%Z, st')
         ∧ visited st' = [0;0;0]%Z.
Proof.
  eexists. split; [vm_compute; reflexivity|].
  apply (findPath_failure_restores 3 0 2 0
           (search_start 3 [[0;1;0];[1;0;0];[0;0;0]]%Z [0;0;0]));
    [vm_compute; reflexivity|reflexivity].
Defined.

(** ** Closure Engine *)

(** C6.  For every [n] by [n] adjacency matrix the [while] loop terminates,
    within at most [n] turns: after [n] turns of the loop body from the
    copied matrix, one more turn sets no cell, prints nothing and leaves
    the flag at 0; and the loop itself returns after at most [n] turns
    (the one idle turn when [n = 0]). *)
Theorem closure_loop_terminates n m :
  square n m →
  (transitiveClosure (pass n m (Nat.iter n (pass n m) (closure_start n m)))
   = transitiveClosure (Nat.iter n (pass n m) (closure_start n m))
   ∧ emitted (pass n m (Nat.iter n (pass n m) (closure_start n m)))
     = emitted (Nat.iter n (pass n m) (closure_start n m))
   ∧ repeat (pass n m (Nat.iter n (pass n m) (closure_start n m))) = 0%Z)
  ∧ ∀ fuel, Nat.max 1 n ≤ fuel →
      ∃ k, k ≤ Nat.max 1 n
           ∧ calculateTransitiveClosure fuel n m
             = Some (Nat.iter k (pass n m) (closure_start n m)).
Proof.
  intros _. split.
  - apply pass_idle; [apply (rounds_shaped n n m)|].
    apply (rounds_settled n m n). lia.
  - intros fuel Hfuel. by apply calculateTransitiveClosure_total.
Qed.

Lemma closure_loop_terminates_witness :
  ∃ k, k ≤ 3 ∧ calculateTransitiveClosure 3 3 chain3
               = Some (Nat.iter k (pass 3 chain3) (closure_start 3 chain3)).
Proof.
  refine (proj2 (closure_loop_terminates 3 chain3 _) 3 _).
  - split; [reflexivity|]. repeat constructor.
  - simpl. lia.
Defined.

(** C10.  The closure computation prints each pair at most once over the
    whole run: the emitted sequence has no duplicates. *)
Theorem closure_emits_once fuel n m :
  square n m → Nat.max 1 n ≤ fuel →
  ∃ out, computeClosure fuel n m = Some out ∧ NoDup out.
Proof.
  intros _ Hfuel.
  destruct (calculateTransitiveClosure_total n m fuel Hfuel) as (k & _ & Hrun).
  exists (emitted (rounds k n m)). unfold computeClosure. rewrite Hrun.
  split; [done|]. apply rounds_NoDup.
Qed.

Lemma closure_emits_once_witness :
  ∃ out, computeClosure 3 3 chain3 = Some out ∧ NoDup out.
Proof.
  apply (closure_emits_once 3 3 chain3).
  - split; [reflexivity|]. repeat constructor.
  - simpl. lia.
Defined.

(** C3.  The pairs printed after the first printing loop all have
    [u ≠ w]; and when [adjacency[u][u] = 1] the pair [(u, u)] is printed
    exactly once, by the first printing loop. *)
Theorem closure_diagonal fuel n m :
  square n m → Nat.max 1 n ≤ fuel →
  ∃ st later,
    calculateTransitiveClosure fuel n m = Some st
    ∧ emitted st
      = emit_initial n (copy_matrix n m (createMatrix n)) [] ++ later
    ∧ Forall (λ p, p.1 ≠ p.2) later
    ∧ ∀ u, u < n → mget m u u = 1%Z →
        length (filter (λ p, p = (u, u))
                  (emit_initial n (copy_matrix n m (createMatrix n)) [])) = 1
        ∧ length (filter (λ p, p = (u, u)) (emitted st)) = 1.
Proof.
  intros _ Hfuel.
  destruct (calculateTransitiveClosure_total n m fuel Hfuel) as (k & _ & Hrun).
  destruct (rounds_later n m k) as (later & Hsplit & Hoff).
  exists (rounds k n m), later. repeat split; try done.
  - apply filter_eq_once; [apply (rounds_NoDup n m 0)|].
    change (emit_initial n (copy_matrix n m (createMatrix n)) [])
      with (emitted (closure_start n m)).
    rewrite closure_start_emitted. apply list_elem_of_filter.
    split; [|by apply elem_of_pairs]. cbn [fst snd].
    by rewrite closure_start_mget.
  - apply filter_eq_once; [apply rounds_NoDup|].
    rewrite Hsplit. apply elem_of_app. left.
    rewrite closure_start_emitted. apply list_elem_of_filter.
    split; [|by apply elem_of_pairs]. cbn [fst snd].
    by rewrite closure_start_mget.
Qed.

Lemma closure_diagonal_witness :
  ∃ st later,
    calculateTransitiveClosure 2 2 [[1;1];[1;0]]%Z = Some st
    ∧ emitted st
      = emit_initial 2 (copy_matrix 2 [[1;1];[1;0]]%Z (createMatrix 2)) []
        ++ later
    ∧ Forall (λ p, p.1 ≠ p.2) later
    ∧ ∀ u, u < 2 → mget [[1;1];[1;0]]%Z u u = 1%Z →
        length (filter (λ p, p = (u, u))
                  (emit_initial 2
                     (copy_matrix 2 [[1;1];[1;0]]%Z (createMatrix 2)) [])) = 1
        ∧ length (filter (λ p, p = (u, u)) (emitted st)) = 1.
Proof.
  apply (closure_diagonal 2 2 [[1;1];[1;0]]%Z).
  - split; [reflexivity|]. repeat constructor.
  - simpl. lia.
Defined.

(** C4.  The closure matrix only grows.  Every loop-body step leaves each
    cell as it was or turns a 0 into a 1; hence a cell that is true stays
    true through any sequence of loop-body steps, through every whole turn
    of the [while] loop, and up to the state the loop returns. *)
Theorem closure_monotone n m i j st :
  (∀ t, mget (transitiveClosure (visit m st t)) i j
        = mget (transitiveClosure st) i j
        ∨ (mget (transitiveClosure st) i j = 0%Z
           ∧ mget (transitiveClosure (visit m st t)) i j = 1%Z))
  ∧ (mget (transitiveClosure st) i j ≠ 0%Z →
     (∀ steps, mget (transitiveClosure (foldl (visit m) st steps)) i j ≠ 0%Z)
     ∧ (∀ k, mget (transitiveClosure (Nat.iter k (pass n m) st)) i j ≠ 0%Z)
     ∧ (∀ fuel st', while_repeat fuel n m st = Some st' →
          mget (transitiveClosure st') i j ≠ 0%Z)).
Proof.
  split; [intros t; apply visit_cell|]. intros Hij.
  assert (∀ k, mget (transitiveClosure (Nat.iter k (pass n m) st)) i j ≠ 0%Z)
    as Hturns.
  { induction k as [|k IH]; [done|]. simpl. by apply pass_keeps. }
  repeat split; try done.
  - intros steps. by apply visits_keep.
  - intros fuel st' (k & _ & -> & _)%while_repeat_result. apply Hturns.
Qed.

Lemma closure_monotone_witness :
  (∀ steps, mget (transitiveClosure
                    (foldl (visit chain3) (closure_start 3 chain3) steps)) 0 1
            ≠ 0%Z)
  ∧ (∀ k, mget (transitiveClosure
                  (Nat.iter k (pass 3 chain3) (closure_start 3 chain3))) 0 1
          ≠ 0%Z)
  ∧ (∀ fuel st', while_repeat fuel 3 chain3 (closure_start 3 chain3) = Some st' →
       mget (transitiveClosure st') 0 1 ≠ 0%Z).
Proof.
  apply (proj2 (closure_monotone 3 chain3 0 1 (closure_start 3 chain3))).
  vm_compute. lia.
Defined.

(** C1 (amended).  On every 0/1 adjacency matrix the closure computation
    returns, and it prints [(u, w)] exactly when there is a nonempty
    directed walk from [u] to [w] and, in the case [u = w], the walk is the
    self-loop [adjacency[u][u]]: a city that reaches itself only round a
    longer cycle is not printed. *)
Theorem closure_emits_walks fuel n m :
  square n m → binary m → Nat.max 1 n ≤ fuel →
  ∃ out, computeClosure fuel n m = Some out
    ∧ ∀ u w, (u, w) ∈ out ↔ walk n m u w ∧ (u = w → edge n m u u).
Proof. apply computeClosure_walks. Qed.

Lemma closure_emits_walks_witness :
  ∃ out, computeClosure 2 2 ring2 = Some out
    ∧ ∀ u w, (u, w) ∈ out ↔ walk 2 ring2 u w ∧ (u = w → edge 2 ring2 u u).
Proof.
  apply (closure_emits_walks 2 2 ring2); [concrete_matrix..|simpl; lia].
Defined.

(** C1 as stated fails on the ring of two cities: city 0 reaches itself
    by the walk 0, 1, 0, yet [(0, 0)] is not printed. *)
Lemma closure_misses_cycle :
  ∃ out, computeClosure 2 2 ring2 = Some out
         ∧ ¬ ((0, 0) ∈ out ↔ walk 2 ring2 0 0).
Proof.
  exists [(0, 1); (1, 0)]. split; [reflexivity|].
  intros [_ Hin].
  assert (walk 2 ring2 0 0) as Hwalk.
  { apply tc_l with 1; [|apply tc_once]; repeat split; (lia || done). }
  apply Hin in Hwalk.
  apply elem_of_cons in Hwalk as [?|Hwalk]; [done|].
  apply elem_of_cons in Hwalk as [?|Hwalk]; [done|].
  by apply elem_of_nil in Hwalk.
Qed.

(** C7.  On a 0/1 adjacency matrix the printed sequence is exactly the one
    the specification describes: first every pair with a true cell in
    row-major order, then, pass after pass, the newly discovered pairs in
    the order in which the ascending [(u, v, w)] enumeration discovers
    them.  The sequence is a function of the matrix alone: two runs that
    return print the same list, whatever fuel they were given. *)
Theorem closure_sequence fuel n m :
  square n m → binary m →
  computeClosure fuel n m = spec_closure fuel n m
  ∧ (∀ fuel' out out',
       computeClosure fuel n m = Some out →
       computeClosure fuel' n m = Some out' → out = out')
  ∧ (Nat.max 1 n ≤ fuel →
     ∃ out later, computeClosure fuel n m = Some out
                  ∧ out = spec_first n m ++ later).
Proof.
  intros _ Hbin. split; [|split].
  - unfold computeClosure, calculateTransitiveClosure, spec_closure.
    apply spec_simulation.
    + apply closure_start_shaped.
    + by apply spec_first_emitted.
    + intros a b Ha Hb.
      by rewrite closure_start_truthy, spec_first_listed.
    + done.
  - unfold computeClosure, calculateTransitiveClosure.
    intros fuel' out out' Hrun Hrun'.
    apply fmap_Some in Hrun as (st & Hrun & ->).
    apply fmap_Some in Hrun' as (st' & Hrun' & ->).
    destruct (decide (fuel ≤ fuel')).
    + apply (while_repeat_more _ fuel') in Hrun; [|done]. congruence.
    + apply (while_repeat_more _ fuel) in Hrun'; [|lia]. congruence.
  - intros Hfuel.
    destruct (calculateTransitiveClosure_total n m fuel Hfuel) as (k & _ & Hrun).
    destruct (rounds_later n m k) as (later & Hsplit & _).
    exists (emitted (rounds k n m)), later. unfold computeClosure.
    rewrite Hrun. split; [done|]. by rewrite Hsplit, spec_first_emitted.
Qed.

Lemma closure_sequence_witness :
  computeClosure 3 3 chain3 = spec_closure 3 3 chain3
  ∧ (∀ fuel' out out',
       computeClosure 3 3 chain3 = Some out →
       computeClosure fuel' 3 chain3 = Some out' → out = out')
  ∧ (Nat.max 1 3 ≤ 3 →
     ∃ out later, computeClosure 3 3 chain3 = Some out
                  ∧ out = spec_first 3 chain3 ++ later).
Proof. apply (closure_sequence 3 3 chain3); concrete_matrix. Defined.

(** C2 (amended).  For two different in-range cities [s] and [d] of a 0/1
    adjacency matrix, both engines return and [findPath(s, d)] answers 0
    exactly when [(s, d)] is not among the pairs the closure computation
    prints.  (For [s = d] the search always answers 1, while [(s, s)] is
    printed only for a self-loop.) *)
Theorem findPath_agrees_with_closure fuel fuel' n m buf s d :
  square n m → binary m → length buf = n →
  s < n → d < n → s ≠ d → n ≤ fuel → Nat.max 1 n ≤ fuel' →
  ∃ r st out,
    findPath fuel s d 0 (search_start n m buf) = Some (r, st)
    ∧ computeClosure fuel' n m = Some out
    ∧ (r = 0%Z ↔ (s, d) ∉ out).
Proof.
  intros Hsq Hbin Hbuf Hs Hd Hne Hfuel Hfuel'.
  destruct (computeClosure_walks fuel' n m Hsq Hbin Hfuel')
    as (out & Hout & Hwalks).
  destruct (findPath_spec n m d n Hsq fuel 0 (replicate n 0%Z))
    with (i := s) (st := search_start n m buf)
    as (r & st & Hrun & _ & _ & _ & Hr); try done.
  { by rewrite length_replicate. }
  { by rewrite unvisited_replicate. }
  { rewrite unvisited_replicate. lia. }
  { by apply lookup_replicate_2. }
  exists r, st, out. repeat split; try done.
  - intros -> Hin. apply Hwalks in Hin as [Hwalk _].
    apply rtc_hop_walk in Hwalk; [|done..].
    destruct Hr as [(_ & _ & Hno)|(? & _)]; done.
  - intros Hin. destruct Hr as [(-> & _)|(_ & Hyes)]; [done|].
    contradict Hin. apply Hwalks. split; [|done].
    by apply rtc_hop_walk in Hyes.
Qed.

Lemma findPath_agrees_with_closure_witness :
  ∃ r st out,
    findPath 3 0 2 0 (search_start 3 chain3 [0;0;0]) = Some (r, st)
    ∧ computeClosure 3 3 chain3 = Some out
    ∧ (r = 0%Z ↔ (0, 2) ∉ out).
Proof.
  apply (findPath_agrees_with_closure 3 3 3 chain3 [0;0;0] 0 2);
    first [lia | concrete_matrix | simpl; lia].
Defined.

(** C2 as stated fails for [s = d] without a self-loop: on the one-city
    matrix [[0]] the search from 0 to 0 answers 1 although the closure
    computation prints nothing. *)
Lemma findPath_self_not_in_closure :
  ∃ r st out,
    findPath 1 0 0 0 (search_start 1 [[0%Z]] [0]) = Some (r, st)
    ∧ computeClosure 1 1 [[0%Z]] = Some out
    ∧ ¬ (r = 0%Z ↔ (0, 0) ∉ out).
Proof.
  eexists _, _, _. split; [reflexivity|]. split; [reflexivity|].
  intros [_ Hzero]. discriminate Hzero. apply not_elem_of_nil.
Qed.

(** * Further properties of the code *)

(** ** Path Finder: the printed path *)

Lemma arrival_transport d k s q st1 st2 st' :
  cityMatrix st1 = cityMatrix st2 → visited st1 = visited st2 →
  stdout st1 = stdout st2 → take k (path st1) = take k (path st2) →
  arrival d k s q st1 st' → arrival d k s q st2 st'.
Proof.
  unfold arrival. intros <- <- <- <-. done.
Qed.

Lemma scan_outcome call d k s todo st found st' :
  (∀ i st r st', call i st = Some (r, st') → visited st !! i = Some 0%Z →
     outcome d k i st r st') →
  scan call s todo st = Some (found, st') →
  cityMatrix st' = cityMatrix st
  ∧ length (path st') = length (path st)
  ∧ take k (path st') = take k (path st)
  ∧ if found : bool
    then ∃ i q, mget (cityMatrix st) s i ≠ 0%Z ∧ arrival d k i q st st'
    else visited st' = visited st ∧ stdout st' = stdout st.
Proof.
  intros Hcall. revert st.
  induction todo as [|i todo IH]; intros st Hscan; simpl in Hscan.
  - by simplify_eq.
  - destruct (visited st !! i) as [vi|] eqn:Hvi; simpl in Hscan; [|done].
    destruct (decide (vi = 0%Z)) as [->|]; [|by apply IH].
    destruct (cell (cityMatrix st) s i) as [ed|] eqn:Hed; simpl in Hscan;
      [|done].
    destruct (decide (ed ≠ 0%Z)) as [Hne|]; [|by apply IH].
    destruct (call i st) as [[r s1]|] eqn:Hc; simpl in Hscan; [|done].
    destruct (Hcall _ _ _ _ Hc Hvi) as (HM & HL & HT & Hr).
    destruct (decide (r ≠ 0%Z)) as [Hr1|Hr0].
    + simplify_eq. repeat split; try done.
      destruct Hr as [(? & _)|(_ & q & Hq)]; [done|].
      exists i, q. split; [|done]. unfold mget. by rewrite Hed.
    + destruct Hr as [(_ & HV & HO)|(-> & _)]; [|by destruct Hr0].
      destruct (IH _ Hscan) as (HM' & HL' & HT' & Hres).
      rewrite HM', HL', HT'. repeat split; try done.
      destruct found.
      * destruct Hres as (j & q & Hj & Hq). exists j, q.
        rewrite <- HM. split; [done|].
        by apply (arrival_transport _ _ _ _ s1).
      * destruct Hres as [-> ->]. done.
Qed.

Lemma take_S_insert {A : Type} (l : list A) k x :
  k < length l → take (S k) (<[k:=x]> l) = take k l ++ [x].
Proof.
  revert k. induction l as [|y l IH]; intros [|k] Hk; simpl in *; try lia.
  - by rewrite take_0.
  - f_equal. apply IH. lia.
Qed.

Lemma findPath_outcome fuel d s k st r st' :
  findPath fuel s d k st = Some (r, st') → visited st !! s = Some 0%Z →
  outcome d k s st r st'.
Proof.
  revert s k st r st'.
  induction fuel as [|fuel IH]; intros s k st r st' Hrun Hs; [done|].
  apply lookup_lt_Some in Hs as Hlt.
  simpl in Hrun. unfold store_visited, store_path in Hrun.
  rewrite decide_True in Hrun by done. simpl in Hrun.
  destruct (decide (k < length (path st))) as [Hk|]; simpl in Hrun; [|done].
  destruct (decide (s = d)) as [->|Hne].
  - simplify_eq. unfold outcome. simpl. rewrite length_insert.
    repeat split; try done.
    { apply take_insert_ge. lia. }
    right. split; [done|]. exists [d]. unfold arrival. simpl.
    repeat split.
    + constructor.
    + apply NoDup_singleton.
    + by intros x ->%list_elem_of_singleton.
    + by rewrite take_S_insert.
    + intros x. destruct (decide (x = d)) as [->|Hx].
      * rewrite decide_True by (by left). by apply list_lookup_insert_eq.
      * rewrite decide_False by (by intros ?%list_elem_of_singleton).
        by apply list_lookup_insert_ne.
    + replace (k + 1) with (S k) by lia. by apply take_S_insert.
  - match type of Hrun with
    | context [scan ?c ?a ?t ?w] =>
        destruct (scan c a t w) as [[found s1]|] eqn:Hscan
    end; simpl in Hrun; [|done].
    apply (scan_outcome _ d (S k)) in Hscan; [|intros; by eapply IH].
    simpl in Hscan. rewrite length_insert in Hscan.
    destruct Hscan as (HM & HL & HT & Hres).
    assert (take k (path s1) = take k (path st)) as HTk.
    { transitivity (take k (take (S k) (path s1))).
      { rewrite take_take. f_equal. lia. }
      rewrite HT, take_take. replace (k `min` S k) with k by lia.
      apply take_insert_ge. lia. }
    destruct found; simpl in Hrun.
    + simplify_eq. unfold outcome. repeat split; try done. right.
      split; [done|].
      destruct Hres as (i & q & Hi & Hq & Hnd & Hfree & Hout & Hvis & Hpath).
      simpl in *. rewrite take_S_insert in Hout, Hpath by done.
      exists (s :: q). unfold arrival.
      assert (s ∉ q) as Hsq.
      { intros Hin. apply Hfree in Hin.
        rewrite list_lookup_insert_eq in Hin by done. done. }
      repeat split.
      * by apply trail_step with i.
      * by apply NoDup_cons.
      * intros x [->|Hx]%elem_of_cons; [done|].
        specialize (Hfree x Hx).
        destruct (decide (s = x)) as [->|]; [done|].
        by rewrite list_lookup_insert_ne in Hfree.
      * by rewrite Hout, <- app_assoc.
      * intros x. rewrite Hvis.
        destruct (decide (x = s)) as [->|Hx].
        -- rewrite decide_False by done. rewrite decide_True by (by left).
           by apply list_lookup_insert_eq.
        -- rewrite list_lookup_insert_ne by done.
           destruct (decide (x ∈ q)).
           ++ rewrite decide_True; [done|by right].
           ++ rewrite decide_False; [done|].
              by intros [?|?]%elem_of_cons.
      * simpl. replace (k + S (length q)) with (S (k + length q)) by lia.
        by rewrite Hpath, <- app_assoc.
    + destruct Hres as [HV HO]. simpl in HV, HO.
      unfold store_visited in Hrun.
      destruct (decide (s < length (visited s1))); simpl in Hrun; [|done].
      simplify_eq. unfold outcome. simpl. repeat split; try done. left.
      repeat split; try done.
      rewrite HV, list_insert_insert_eq. by apply list_insert_id.
Qed.

Lemma trail_ends m d s q : trail m d s q → head q = Some s ∧ last q = Some d.
Proof.
  induction 1 as [|s i q He Hq [Hhead Hlast]]; [done|]. split; [done|].
  destruct q; [done|]. done.
Qed.

Lemma rtc_hop_reach n m s d :
  s < n → rtc (hop m (replicate n 0%Z)) s d ↔ s = d ∨ walk n m s d.
Proof.
  intros Hs. destruct (decide (s = d)) as [->|Hne].
  - split; [by left|done].
  - rewrite rtc_hop_walk by done. split; [by right|].
    intros [Heq|Hwalk]; [by destruct Hne|done].
Qed.

(** The search from the top: it returns, with 1 exactly when the
    destination is the source or is joined to it by a walk. *)
Lemma search_answer fuel n m buf s d :
  square n m → length buf = n → s < n → n ≤ fuel →
  ∃ r st, findPath fuel s d 0 (search_start n m buf) = Some (r, st)
    ∧ ((r = 0%Z ∧ ¬ (s = d ∨ walk n m s d))
       ∨ (r = 1%Z ∧ (s = d ∨ walk n m s d))).
Proof.
  intros Hsq Hbuf Hs Hfuel.
  destruct (findPath_spec n m d n Hsq fuel 0 (replicate n 0%Z))
    with (i := s) (st := search_start n m buf)
    as (r & st & Hrun & _ & _ & _ & Hr); try done.
  { by rewrite length_replicate. }
  { by rewrite unvisited_replicate. }
  { rewrite unvisited_replicate. lia. }
  { by apply lookup_replicate_2. }
  exists r, st. split; [done|]. rewrite <- (rtc_hop_reach n m s d Hs).
  destruct Hr as [(-> & _ & Hno)|(-> & Hyes)]; [by left|by right].
Qed.

(** What a search from the top that answers 1 has printed and marked. *)
Lemma search_arrival fuel n m buf s d st :
  s < n → findPath fuel s d 0 (search_start n m buf) = Some (1%Z, st) →
  ∃ q, stdout st = [YesPath q] ∧ trail m d s q ∧ NoDup q
       ∧ (∀ x, x ∈ q → x < n)
       ∧ (∀ x, visited st !! x
               = if decide (x ∈ q) then Some 1%Z else replicate n 0%Z !! x)
       ∧ take (length q) (path st) = q.
Proof.
  intros Hs Hrun. apply findPath_outcome in Hrun; [|by apply lookup_replicate_2].
  destruct Hrun as (_ & _ & _ & [(? & _)|(_ & q & Hq)]); [done|].
  destruct Hq as (Htrail & Hnd & Hfree & Hout & Hvis & Hpath). simpl in *.
  exists q. repeat split; try done.
  intros x Hx. by apply Hfree, lookup_replicate in Hx as [_ ?].
Qed.

Lemma NoDup_below_length (q : list nat) n :
  NoDup q → (∀ x, x ∈ q → x < n) → length q ≤ n.
Proof.
  intros Hnd Hlt. transitivity (length (seq 0 n)); [|by rewrite length_seq].
  apply submseteq_length, NoDup_submseteq; [done|].
  intros x Hx. apply elem_of_seq. specialize (Hlt x Hx). lia.
Qed.

(** X1.  From the top, with the source in range, [findPath] returns (the
    fuel only has to cover [N] activations, and no array is left) and
    its answer is 0 or 1: it is 1 exactly when the destination is the
    source or there is a directed walk from the source to it.  Cells are
    read as C truth values, so any non-zero cell is an edge. *)
Theorem findPath_decides_reachability fuel n m buf s d :
  square n m → length buf = n → s < n → n ≤ fuel →
  ∃ r st, findPath fuel s d 0 (search_start n m buf) = Some (r, st)
          ∧ (r = 0%Z ∨ r = 1%Z)
          ∧ (r = 1%Z ↔ s = d ∨ walk n m s d).
Proof.
  intros Hsq Hbuf Hs Hfuel.
  destruct (search_answer fuel n m buf s d) as (r & st & Hrun & Hr); try done.
  exists r, st. split; [done|].
  destruct Hr as [(-> & Hno)|(-> & Hyes)]; (split; [auto|]); split; try done.
Qed.

Lemma findPath_decides_reachability_witness :
  ∃ r st, findPath 3 0 2 0 (search_start 3 chain3 [9;9;9]) = Some (r, st)
          ∧ (r = 0%Z ∨ r = 1%Z)
          ∧ (r = 1%Z ↔ 0 = 2 ∨ walk 3 chain3 0 2).
Proof.
  apply (findPath_decides_reachability 3 3 chain3 [9;9;9] 0 2);
    first [lia | concrete_matrix].
Defined.

(** X2.  When [findPath] answers 1 it has printed exactly one line, and
    the path on it starts at the source, ends at the destination, follows
    non-zero cells of the matrix from each city to the next, visits no
    city twice, stays below [N] and so has at most [N] cities; the [path]
    array holds that same path. *)
Theorem findPath_prints_simple_path fuel n m buf s d st :
  s < n → findPath fuel s d 0 (search_start n m buf) = Some (1%Z, st) →
  ∃ q, stdout st = [YesPath q]
       ∧ head q = Some s ∧ last q = Some d ∧ trail m d s q
       ∧ NoDup q ∧ (∀ x, x ∈ q → x < n) ∧ length q ≤ n
       ∧ take (length q) (path st) = q.
Proof.
  intros Hs Hrun.
  destruct (search_arrival _ _ _ _ _ _ _ Hs Hrun)
    as (q & Hout & Htrail & Hnd & Hlt & _ & Hpath).
  destruct (trail_ends _ _ _ _ Htrail) as [Hhead Hlast].
  exists q. repeat split; try done. by apply NoDup_below_length.
Qed.

Lemma findPath_prints_simple_path_witness :
  ∃ q, stdout (World 3 chain3 [1;1;1]%Z [0;1;2] [YesPath [0;1;2]])
       = [YesPath q]
       ∧ head q = Some 0 ∧ last q = Some 2 ∧ trail chain3 2 0 q
       ∧ NoDup q ∧ (∀ x, x ∈ q → x < 3) ∧ length q ≤ 3
       ∧ take (length q)
           (path (World 3 chain3 [1;1;1]%Z [0;1;2] [YesPath [0;1;2]])) = q.
Proof.
  apply (findPath_prints_simple_path 3 3 chain3 [9;9;9] 0 2);
    [lia|reflexivity].
Defined.

(** A search from the top that answers 0 has printed nothing and left no
    mark. *)
Lemma search_failure fuel n m buf s d st :
  s < n → findPath fuel s d 0 (search_start n m buf) = Some (0%Z, st) →
  stdout st = [] ∧ visited st = replicate n 0%Z.
Proof.
  intros Hs Hrun. apply findPath_outcome in Hrun; [|by apply lookup_replicate_2].
  destruct Hrun as (_ & _ & _ & [(_ & ? & ?)|(? & _)]); done.
Qed.

(** X3.  When [findPath] answers 1, the cities left marked in [visited]
    are exactly the cities of the printed path: every mark made on a
    branch that failed has been taken back. *)
Theorem findPath_marks_printed_path fuel n m buf s d st :
  s < n → findPath fuel s d 0 (search_start n m buf) = Some (1%Z, st) →
  ∃ q, stdout st = [YesPath q]
       ∧ ∀ x, x < n →
           visited st !! x = Some (if decide (x ∈ q) then 1%Z else 0%Z).
Proof.
  intros Hs Hrun.
  destruct (search_arrival _ _ _ _ _ _ _ Hs Hrun)
    as (q & Hout & _ & _ & _ & Hvis & _).
  exists q. split; [done|]. intros x Hx. rewrite Hvis.
  destruct (decide (x ∈ q)); [done|]. by apply lookup_replicate_2.
Qed.

Lemma findPath_marks_printed_path_witness :
  ∃ q, stdout (World 3 [[0;1;1];[0;0;0];[0;0;0]]%Z [1;0;1]%Z [0;2;9]
                 [YesPath [0;2]]) = [YesPath q]
       ∧ ∀ x, x < 3 →
           visited (World 3 [[0;1;1];[0;0;0];[0;0;0]]%Z [1;0;1]%Z [0;2;9]
                      [YesPath [0;2]]) !! x
           = Some (if decide (x ∈ q) then 1%Z else 0%Z).
Proof.
  apply (findPath_marks_printed_path 3 3 [[0;1;1];[0;0;0];[0;0;0]]%Z
           [9;9;9] 0 2); [lia|reflexivity].
Defined.

(** The one line [implementR] prints. *)
Lemma implementR_report fuel n m buf s d :
  square n m → length buf = n → s < n → n ≤ fuel →
  ∃ st, implementR fuel n m buf s d = Some st
    ∧ ((stdout st = [NoPath] ∧ ¬ (s = d ∨ walk n m s d))
       ∨ (∃ q, stdout st = [YesPath q] ∧ (s = d ∨ walk n m s d)
               ∧ trail m d s q ∧ NoDup q ∧ ∀ x, x ∈ q → x < n)).
Proof.
  intros Hsq Hbuf Hs Hfuel. unfold implementR.
  destruct (search_answer fuel n m buf s d)
    as (r & st & Hrun & [(-> & Hno)|(-> & Hyes)]); try done;
    rewrite Hrun; simpl.
  - eexists. split; [done|]. left. split; [|done]. simpl.
    by destruct (search_failure _ _ _ _ _ _ _ Hs Hrun) as [-> _].
  - exists st. split; [done|]. right.
    destruct (search_arrival _ _ _ _ _ _ _ Hs Hrun)
      as (q & Hout & Htrail & Hnd & Hlt & _).
    by exists q.
Qed.

(** X4.  [implementR] on a loaded matrix, with the source in range, prints
    exactly one line: "No Path Exists!" when the destination is neither
    the source nor reachable from it by a walk, and otherwise "Yes Path
    Exists!" with a path from the source to the destination along
    non-zero cells that repeats no city. *)
Theorem implementR_one_line fuel n m buf s d :
  square n m → length buf = n → s < n → n ≤ fuel →
  ∃ st, implementR fuel n m buf s d = Some st
    ∧ ((stdout st = [NoPath] ∧ ¬ (s = d ∨ walk n m s d))
       ∨ (∃ q, stdout st = [YesPath q] ∧ (s = d ∨ walk n m s d)
               ∧ head q = Some s ∧ last q = Some d
               ∧ trail m d s q ∧ NoDup q)).
Proof.
  intros Hsq Hbuf Hs Hfuel.
  destruct (implementR_report fuel n m buf s d)
    as (st & Hrun & [Hno|(q & Hout & Hyes & Htrail & Hnd & _)]); try done.
  - exists st. split; [done|]. by left.
  - exists st. split; [done|]. right.
    destruct (trail_ends _ _ _ _ Htrail) as [Hhead Hlast]. by exists q.
Qed.

Lemma implementR_one_line_witness :
  ∃ st, implementR 3 3 chain3 [9;9;9] 2 0 = Some st
    ∧ ((stdout st = [NoPath] ∧ ¬ (2 = 0 ∨ walk 3 chain3 2 0))
       ∨ (∃ q, stdout st = [YesPath q] ∧ (2 = 0 ∨ walk 3 chain3 2 0)
               ∧ head q = Some 2 ∧ last q = Some 0
               ∧ trail chain3 0 2 q ∧ NoDup q)).
Proof.
  apply (implementR_one_line 3 3 chain3 [9;9;9] 2 0);
    first [lia | concrete_matrix].
Defined.



(** ** Closure Engine: size and contents of the output *)

Lemma length_pairs n : length (pairs n) = n * n.
Proof.
  unfold pairs. rewrite (length_bind_uniform _ n), length_seq; [done|].
  intros u. by rewrite bind_singleton_fmap, length_fmap, length_seq.
Qed.

Lemma rounds_monotone n m k k' a b :
  k ≤ k' → a < n → b < n →
  truthy (transitiveClosure (rounds k n m)) a b = true →
  truthy (transitiveClosure (rounds k' n m)) a b = true.
Proof.
  intros Hk Ha Hb Ht. induction Hk as [|k' _ IH]; [done|].
  rewrite rounds_S. apply pass_monotone; [apply rounds_shaped|done..].
Qed.

(** A printed pair has a cell equal to 1, or a cell equal to 0 off the
    diagonal. *)
Lemma rounds_emitted_cell n m k a b :
  (a, b) ∈ emitted (rounds k n m) →
  mget m a b = 1%Z ∨ (mget m a b = 0%Z ∧ a ≠ b).
Proof.
  induction k as [|k IH].
  - unfold rounds. simpl Nat.iter. rewrite closure_start_emitted.
    intros [Hone [Ha Hb]%elem_of_pairs]%list_elem_of_filter.
    cbn [fst snd] in Hone. rewrite closure_start_mget in Hone by done.
    by left.
  - rewrite rounds_S, pass_emitted by apply rounds_shaped.
    intros [Hin|Hin]%elem_of_app; [by apply IH|]. right.
    apply news_sound in Hin as (Ha & Hb & Hne & Hf & _). split; [|done].
    destruct (decide (mget m a b = 0%Z)) as [|Hnz]; [done|].
    rewrite (rounds_contains n m k a b) in Hf; [done..|].
    by apply bool_decide_eq_true.
Qed.

(** A true cell was true in the adjacency matrix or has been printed. *)
Lemma rounds_truthy_source n m k a b :
  a < n → b < n → truthy (transitiveClosure (rounds k n m)) a b = true →
  truthy m a b = true ∨ (a, b) ∈ emitted (rounds k n m).
Proof.
  intros Ha Hb. induction k as [|k IH].
  - unfold rounds. simpl Nat.iter. rewrite closure_start_truthy by done.
    by left.
  - rewrite rounds_S, pass_emitted, pass_truthy by (done || apply rounds_shaped).
    intros [Ht|Hin%bool_decide_eq_true]%orb_true_iff.
    + destruct (IH Ht) as [?|?]; [by left|right]. apply elem_of_app. by left.
    + right. apply elem_of_app. by right.
Qed.

Lemma rounds_one_emitted n m k a b :
  a < n → b < n → mget m a b = 1%Z → (a, b) ∈ emitted (rounds k n m).
Proof.
  intros Ha Hb Hone. induction k as [|k IH].
  - unfold rounds. simpl Nat.iter. rewrite closure_start_emitted.
    apply list_elem_of_filter. split; [|by apply elem_of_pairs].
    cbn [fst snd]. by rewrite closure_start_mget.
  - rewrite rounds_S, pass_emitted by apply rounds_shaped.
    apply elem_of_app. by left.
Qed.

(** X6.  The closure computation prints at most [N * N] lines, and every
    pair it prints lies inside the matrix. *)
Theorem closure_output_bounded fuel n m :
  square n m → Nat.max 1 n ≤ fuel →
  ∃ out, computeClosure fuel n m = Some out
         ∧ length out ≤ n * n
         ∧ ∀ u w, (u, w) ∈ out → u < n ∧ w < n.
Proof.
  intros _ Hfuel.
  destruct (calculateTransitiveClosure_total n m fuel Hfuel) as (k & _ & Hrun).
  exists (emitted (rounds k n m)). unfold computeClosure. rewrite Hrun.
  split; [done|].
  assert (∀ u w, (u, w) ∈ emitted (rounds k n m) → u < n ∧ w < n) as Hin.
  { intros u w (? & ? & _)%rounds_emitted_truthy. done. }
  split; [|done]. rewrite <- length_pairs.
  apply submseteq_length, NoDup_submseteq; [apply rounds_NoDup|].
  intros [u w] Huw. apply elem_of_pairs. by apply Hin.
Qed.

Lemma closure_output_bounded_witness :
  ∃ out, computeClosure 3 3 chain3 = Some out
         ∧ length out ≤ 3 * 3
         ∧ ∀ u w, (u, w) ∈ out → u < 3 ∧ w < 3.
Proof.
  apply (closure_output_bounded 3 3 chain3); first [lia | concrete_matrix].
Defined.

(** The printed pairs, for a matrix of arbitrary integers. *)
Lemma computeClosure_cells fuel n m :
  square n m → Nat.max 1 n ≤ fuel →
  ∃ out, computeClosure fuel n m = Some out
    ∧ ∀ u w, (u, w) ∈ out ↔
        u < n ∧ w < n
        ∧ (mget m u w = 1%Z ∨ (mget m u w = 0%Z ∧ u ≠ w ∧ walk n m u w)).
Proof.
  intros _ Hfuel.
  destruct (calculateTransitiveClosure_total n m fuel Hfuel) as (k0 & _ & Hrun).
  destruct (calculateTransitiveClosure_result n m fuel _ Hrun)
    as (k & _ & _ & Htc & Hout & Hclosed).
  exists (emitted (rounds k0 n m)). unfold computeClosure. rewrite Hrun.
  split; [done|]. rewrite Hout, Htc in *. clear Hrun Hout Htc k0.
  intros u w. split.
  - intros Hin. pose proof Hin as (Hu & Hw & Ht)%rounds_emitted_truthy.
    repeat split; try done.
    destruct (rounds_emitted_cell _ _ _ _ _ Hin) as [?|[? ?]]; [by left|right].
    repeat split; try done. by apply (rounds_sound n m k).
  - intros (Hu & Hw & [Hone|(Hzero & Hne & Hwalk)]).
    + by apply rounds_one_emitted.
    + destruct (rounds_truthy_source n m k u w) as [Ht|?]; try done.
      * apply (closed_walk n m); try done.
        intros a b Ha Hb. by apply rounds_contains.
      * apply bool_decide_eq_true in Ht. done.
Qed.


(** X7.  On a matrix of arbitrary integers the closure computation prints
    [(u, w)] exactly when the cell [adjacency[u][w]] is 1, or the cell is
    0, [u ≠ w] and a walk along non-zero cells leads from [u] to [w].  So
    a cell holding a non-zero value other than 1 counts as an edge for
    the pairs beyond it but is itself never printed. *)
Theorem closure_output_any_integers fuel n m :
  square n m → Nat.max 1 n ≤ fuel →
  ∃ out, computeClosure fuel n m = Some out
    ∧ ∀ u w, (u, w) ∈ out ↔
        u < n ∧ w < n
        ∧ (mget m u w = 1%Z ∨ (mget m u w = 0%Z ∧ u ≠ w ∧ walk n m u w)).
Proof. apply computeClosure_cells. Qed.

Lemma closure_output_any_integers_witness :
  ∃ out, computeClosure 3 3 [[0;2;0];[0;0;1];[0;0;0]]%Z = Some out
    ∧ ∀ u w, (u, w) ∈ out ↔
        u < 3 ∧ w < 3
        ∧ (mget [[0;2;0];[0;0;1];[0;0;0]]%Z u w = 1%Z
           ∨ (mget [[0;2;0];[0;0;1];[0;0;0]]%Z u w = 0%Z ∧ u ≠ w
              ∧ walk 3 [[0;2;0];[0;0;1];[0;0;0]]%Z u w)).
Proof.
  apply (closure_output_any_integers 3 3 [[0;2;0];[0;0;1];[0;0;0]]%Z);
    first [lia | concrete_matrix].
Defined.

(** ** Closure Engine: turns and distances *)

(** Every walk of [j] edges from [u] ends at [u] or in a cell that is true
    after [j - 1] turns. *)
Lemma nsteps_rounds n m u j y :
  nsteps (edge n m) j u y →
  y = u ∨ (1 ≤ j ∧ truthy (transitiveClosure (rounds (j - 1) n m)) u y = true).
Proof.
  revert y. induction j as [|j IH]; intros y Hsteps.
  - inversion Hsteps. by left.
  - apply nsteps_inv_r in Hsteps as (x & Hux & (Hx & Hy & He)).
    destruct (decide (y = u)) as [|Hyu]; [by left|right].
    split; [lia|]. replace (S j - 1) with j by lia.
    assert (truthy m x y = true) as Hxy by (by apply bool_decide_eq_true).
    destruct (IH x Hux) as [->|[Hj Hprev]].
    + by apply rounds_contains.
    + assert (u < n) as Hu.
      { destruct j; [lia|]. apply (nsteps_add_inv 1 j) in Hux as (z & H1 & _).
        by apply nsteps_once_inv in H1 as (? & _). }
      replace j with (S (j - 1)) by lia. rewrite rounds_S.
      rewrite pass_truthy by (done || apply rounds_shaped).
      apply orb_true_iff.
      destruct (news_complete n m (transitiveClosure (rounds (j - 1) n m))
                  u x y) as [?|?]; try done; [by left|right].
      by apply bool_decide_eq_true.
Qed.

Lemma rounds_nsteps n m k u w :
  u < n → w < n →
  truthy (transitiveClosure (rounds k n m)) u w = true →
  ∃ j, 1 ≤ j ≤ S k ∧ nsteps (edge n m) j u w.
Proof.
  revert w. induction k as [|k IH]; intros w Hu Hw.
  - unfold rounds. simpl Nat.iter. rewrite closure_start_truthy by done.
    intros Ht%bool_decide_eq_true. exists 1. split; [lia|].
    by apply nsteps_once.
  - rewrite rounds_S, pass_truthy by (done || apply rounds_shaped).
    intros [Ht|Hin%bool_decide_eq_true]%orb_true_iff.
    + destruct (IH w Hu Hw Ht) as (j & Hj & Hsteps). exists j.
      split; [lia|done].
    + apply news_sound in Hin as (_ & _ & _ & _ & v & Hv & Huv & Hvw).
      destruct (IH v Hu Hv Huv) as (j & Hj & Hsteps). exists (S j).
      split; [lia|]. eapply nsteps_r; [done|].
      apply bool_decide_eq_true in Hvw. done.
Qed.

(** The true cells off the diagonal after [k] turns, by distance. *)
Lemma rounds_distance n m k u w :
  u < n → w < n → u ≠ w →
  truthy (transitiveClosure (rounds k n m)) u w = true
  ↔ ∃ j, 1 ≤ j ≤ S k ∧ nsteps (edge n m) j u w.
Proof.
  intros Hu Hw Hne. split.
  - by apply rounds_nsteps.
  - intros (j & Hj & Hsteps).
    destruct (nsteps_rounds _ _ _ _ _ Hsteps) as [->|[_ Ht]]; [done|].
    apply (rounds_monotone n m (j - 1)); [lia|done..].
Qed.

(** X8.  Turns go by distance: after [k] turns of the [while] loop, a
    cell [(u, w)] off the diagonal is true exactly when some walk of at
    most [k + 1] edges leads from [u] to [w].  (Before the first turn the
    matrix holds the edges; each turn reaches one edge further.) *)
Theorem closure_turns_by_distance n m k u w :
  u < n → w < n → u ≠ w →
  mget (transitiveClosure (Nat.iter k (pass n m) (closure_start n m))) u w
  ≠ 0%Z
  ↔ ∃ j, 1 ≤ j ≤ S k ∧ nsteps (edge n m) j u w.
Proof.
  intros Hu Hw Hne. fold (rounds k n m).
  rewrite <- (bool_decide_eq_true (mget _ u w ≠ 0%Z)).
  by apply rounds_distance.
Qed.

Lemma closure_turns_by_distance_witness :
  mget (transitiveClosure (Nat.iter 1 (pass 3 chain3) (closure_start 3 chain3)))
    0 2 ≠ 0%Z
  ↔ ∃ j, 1 ≤ j ≤ 2 ∧ nsteps (edge 3 chain3) j 0 2.
Proof. apply (closure_turns_by_distance 3 chain3 1 0 2); lia. Defined.

(** ** Closure Engine: a sharper bound on the turns *)

Section off_diagonal.
Variables (n : nat) (m : matrix).

Lemma news_off_room k u w :
  (u, w) ∈ news n m (transitiveClosure (rounds k n m)) →
  0 < off_count n (transitiveClosure (rounds k n m)) u
  ∧ off_count n (transitiveClosure (rounds k n m)) u + 2 ≤ n.
Proof.
  intros (Hu & Hw & Hne & Hf & v & Hv & Huv & Hvw)%news_sound.
  unfold off_count. split.
  - apply (filter_length_pos _ _ v); [apply elem_of_seq; lia|].
    split; [|done]. intros ->.
    rewrite (rounds_contains n m k u w) in Hf; done.
  - pose proof (filter_length_lt
      (λ z, z ≠ u ∧ truthy (transitiveClosure (rounds k n m)) u z = true)
      (λ z, z ≠ u) (seq 0 n) w) as H1.
    pose proof (length_filter_lt (λ z, z ≠ u) (seq 0 n) u) as H2.
    rewrite length_seq in H2.
    assert (w ∈ seq 0 n) by (apply elem_of_seq; lia).
    assert (u ∈ seq 0 n) by (apply elem_of_seq; lia).
    assert (length (filter (λ z, z ≠ u) (seq 0 n)) < n) by (apply H2; tauto).
    assert (length (filter (λ z, z ≠ u
              ∧ truthy (transitiveClosure (rounds k n m)) u z = true)
              (seq 0 n)) < length (filter (λ z, z ≠ u) (seq 0 n))).
    { apply H1; try done; [tauto|]. intros [_ ?]. congruence. }
    lia.
Qed.

Lemma news_off_grows k u w :
  (u, w) ∈ news n m (transitiveClosure (rounds k n m)) →
  off_count n (transitiveClosure (rounds k n m)) u
  < off_count n (transitiveClosure (rounds (S k) n m)) u.
Proof.
  intros Hin.
  pose proof Hin as (Hu & Hw & Hne & Hf & _)%news_sound.
  unfold off_count. apply (filter_length_lt _ _ _ w).
  - intros y Hy%elem_of_seq [? ?]. split; [done|].
    apply (rounds_monotone n m k); [lia..|done].
  - apply elem_of_seq. lia.
  - split; [done|]. rewrite rounds_S, pass_truthy by (done || apply rounds_shaped).
    apply orb_true_iff. right. by apply bool_decide_eq_true.
  - intros [_ ?]. congruence.
Qed.

Lemma news_off_depth k u w :
  (u, w) ∈ news n m (transitiveClosure (rounds k n m)) →
  k < off_count n (transitiveClosure (rounds k n m)) u.
Proof.
  revert w. induction k as [|k IH]; intros w Hin.
  - by apply news_off_room in Hin as [? _].
  - pose proof Hin as Hin0. rewrite rounds_S in Hin0.
    destruct (news_persist n m _ _ _ (rounds_shaped k n m) Hin0) as [w' Hin'].
    pose proof (IH _ Hin'). pose proof (news_off_grows _ _ _ Hin'). lia.
Qed.

Lemma rounds_settled_early k :
  n ≤ k + 2 → news n m (transitiveClosure (rounds k n m)) = [].
Proof.
  intros Hk.
  destruct (news n m (transitiveClosure (rounds k n m))) as [|[u w] l] eqn:Hnews;
    [done|].
  assert ((u, w) ∈ news n m (transitiveClosure (rounds k n m))) as Hin
    by (rewrite Hnews; by left).
  pose proof (news_off_depth _ _ _ Hin). apply news_off_room in Hin. lia.
Qed.
End off_diagonal.

(** X9.  The [while] loop needs at most [N - 1] turns (one turn when [N]
    is below 2): a row that still gains a cell in turn [k + 1] holds more
    than [k] true cells off the diagonal and lacks one more, and a row has
    only [N - 1] such cells. *)
Theorem closure_turns_below_size fuel n m :
  square n m → Nat.max 1 (n - 1) ≤ fuel →
  ∃ k, k ≤ Nat.max 1 (n - 1)
       ∧ calculateTransitiveClosure fuel n m
         = Some (Nat.iter k (pass n m) (closure_start n m)).
Proof.
  intros _ Hfuel. unfold calculateTransitiveClosure.
  apply while_repeat_reaches; [done|].
  destruct (Nat.max 1 (n - 1)) as [|k] eqn:Hmax; [lia|].
  fold (rounds (S k) n m). rewrite rounds_S.
  apply pass_idle; [apply rounds_shaped|]. apply rounds_settled_early. lia.
Qed.

Lemma closure_turns_below_size_witness :
  ∃ k, k ≤ Nat.max 1 (3 - 1)
       ∧ calculateTransitiveClosure 2 3 chain3
         = Some (Nat.iter k (pass 3 chain3) (closure_start 3 chain3)).
Proof.
  apply (closure_turns_below_size 2 3 chain3); [concrete_matrix|simpl; lia].
Defined.

(** ** Loading and printing the matrix *)

Lemma foldl_bind_None {S B : Type} (f : B → S → option S) (l : list B) :
  foldl (λ acc x, acc ≫= f x) None l = None.
Proof. induction l as [|x l IH]; [done|]. simpl. apply IH. Qed.

Lemma foldl_bind_Some {S B : Type} (f : B → S → option S) (l : list B)
    (o : option S) :
  o ≫= (λ s, foldl (λ acc x, acc ≫= f x) (Some s) l)
  = foldl (λ acc x, acc ≫= f x) o l.
Proof. destruct o; simpl; [done|]. by rewrite foldl_bind_None. Qed.

(** The two reading loops as one pass over the cells in row-major order. *)
Lemma read_cells_flat n input mat :
  read_cells n input mat
  = foldl (λ acc p, acc ≫= read_cell p.1 p.2) (Some (input, mat)) (pairs n).
Proof.
  unfold read_cells, for_range_opt. rewrite foldl_pairs. unfold for_range.
  apply foldl_ext_in. intros acc i _. apply foldl_bind_Some.
Qed.

Lemma read_flat_short (ps : list (nat * nat)) cells mat :
  length cells < length ps →
  foldl (λ acc p, acc ≫= read_cell p.1 p.2) (Some (cells, mat)) ps = None.
Proof.
  revert cells mat. induction ps as [|p ps IH]; intros cells mat Hlen;
    [simpl in Hlen; lia|].
  destruct cells as [|x cells]; simpl.
  - apply foldl_bind_None.
  - apply IH. simpl in Hlen. lia.
Qed.

Lemma read_flat_full n (ps : list (nat * nat)) cells rest mat :
  NoDup ps → (∀ i j, (i, j) ∈ ps → i < n ∧ j < n) → square n mat →
  length cells = length ps →
  ∃ mat',
    foldl (λ acc p, acc ≫= read_cell p.1 p.2) (Some (cells ++ rest, mat)) ps
    = Some (rest, mat')
    ∧ square n mat'
    ∧ ∀ k i j, ps !! k = Some (i, j) → cells !! k = Some (mget mat' i j).
Proof.
  intros Hnd Hin Hsq. revert cells rest Hnd Hin.
  induction ps as [|[i j] ps IH] using rev_ind; intros cells rest Hnd Hin Hlen.
  - destruct cells; [|done]. exists mat. split; [done|]. split; [done|].
    intros k i j Hk. done.
  - rewrite length_app in Hlen. simpl in Hlen.
    destruct (decide (cells = [])) as [->|Hne]; [simpl in Hlen; lia|].
    destruct (exists_last Hne) as (front & x & ->).
    rewrite length_app in Hlen. simpl in Hlen.
    apply NoDup_app in Hnd as (Hnd & Hfresh & _).
    destruct (IH front (x :: rest)) as (mat1 & Hrun & Hsq1 & Hcells);
      [done| |lia|].
    { intros a b Hab. apply Hin, elem_of_app. by left. }
    destruct (Hin i j) as [Hi Hj]; [apply elem_of_app; right; by left|].
    exists (mset mat1 i j x). rewrite foldl_snoc, <- app_assoc. simpl.
    rewrite Hrun. simpl. split; [done|]. split; [by apply mset_square|].
    intros k a b Hk.
    destruct (decide (k < length ps)) as [Hlt|Hge].
    + rewrite lookup_app_l in Hk by done.
      rewrite lookup_app_l by lia.
      rewrite mget_mset_ne; [by apply Hcells|].
      intros Heq. apply (Hfresh (a, b)); [by eapply list_elem_of_lookup_2|].
      rewrite Heq. by left.
    + apply lookup_lt_Some in Hk as Hk'. rewrite length_app in Hk'.
      simpl in Hk'. assert (k = length ps) as -> by lia.
      rewrite list_lookup_middle in Hk by done. simplify_eq.
      rewrite list_lookup_middle by lia.
      by rewrite (mget_mset_eq n).
Qed.

Lemma readAdjacencyMatrix_full n cells rest :
  length cells = n * n →
  ∃ mat, readAdjacencyMatrix (Z.of_nat n :: cells ++ rest)
         = Done (Z.of_nat n, mat, rest)
    ∧ square n mat
    ∧ ∀ i j, i < n → j < n → cells !! (i * n + j) = Some (mget mat i j).
Proof.
  intros Hlen. unfold readAdjacencyMatrix. simpl. rewrite Nat2Z.id.
  rewrite read_cells_flat.
  destruct (read_flat_full n (pairs n) cells rest (createMatrix n))
    as (mat & -> & Hsq & Hcells).
  - apply NoDup_pairs.
  - intros i j. by rewrite elem_of_pairs.
  - apply createMatrix_square.
  - by rewrite length_pairs.
  - exists mat. split; [done|]. split; [done|].
    intros i j Hi Hj. apply Hcells. by apply pairs_lookup.
Qed.





Lemma for_range_collect {A : Type} (f : nat → A) n (init : list A) :
  for_range n (λ j acc, acc ++ [f j]) init = init ++ (f <$> seq 0 n).
Proof.
  unfold for_range. generalize (seq 0 n). intros l. revert init.
  induction l as [|x l IH]; intros init; simpl.
  - by rewrite app_nil_r.
  - by rewrite IH, <- app_assoc.
Qed.

Lemma print_table_rows n mat :
  print_table n mat
  = NeighborTable
    :: (TableRow <$> ((λ i, mget mat i <$> seq 0 n) <$> seq 0 n))
    ++ [BlankLine].
Proof.
  unfold print_table.
  rewrite (for_range_collect (λ i, TableRow (print_row n mat i))). simpl.
  do 2 f_equal. rewrite <- list_fmap_compose. apply list_fmap_ext.
  intros _ i _. simpl. unfold print_row.
  by rewrite (for_range_collect (mget mat i)).
Qed.

Lemma concat_fmap_bind {A B : Type} (f : A → list B) (l : list A) :
  concat (f <$> l) = l ≫= f.
Proof.
  induction l as [|x l IH]; [done|]. rewrite bind_cons, fmap_cons.
  change (concat (f x :: (f <$> l))) with (f x ++ concat (f <$> l)).
  by rewrite IH.
Qed.

Lemma concat_rows n (mat : matrix) cells :
  length cells = n * n →
  (∀ i j, i < n → j < n → cells !! (i * n + j) = Some (mget mat i j)) →
  concat ((λ i, mget mat i <$> seq 0 n) <$> seq 0 n) = cells.
Proof.
  intros Hlen Hcells.
  rewrite concat_fmap_bind.
  assert (∀ i : nat, length (mget mat i <$> seq 0 n) = n) as Hrow
    by (intros; by rewrite length_fmap, length_seq).
  apply list_eq. intros k. destruct (decide (k < n * n)) as [Hk|Hk].
  - assert (n ≠ 0) as Hn by lia.
    pose proof (Nat.div_mod_eq k n) as Hdm.
    pose proof (Nat.mod_upper_bound k n Hn) as Hj.
    assert (k / n < n) as Hi by (apply Nat.Div0.div_lt_upper_bound; lia).
    replace k with (k / n * n + k mod n) at 1 2 by lia.
    rewrite (lookup_bind_uniform _ n _ (k / n) (k mod n) (k / n));
      [|done|by apply lookup_seq_lt|done].
    rewrite list_lookup_fmap, lookup_seq_lt by done. simpl.
    by rewrite Hcells.
  - rewrite !lookup_ge_None_2; [done|lia|].
    rewrite (length_bind_uniform _ n), length_seq by done. lia.
Qed.



(** ** From the file to the answer *)

Lemma trail_links m d s q :
  trail m d s q →
  ∀ k a b, q !! k = Some a → q !! S k = Some b → mget m a b ≠ 0%Z.
Proof.
  induction 1 as [|s i q He Hq IH]; intros k a b Ha Hb.
  - destruct k; done.
  - destruct k as [|k]; simpl in *.
    + simplify_eq. destruct (trail_ends _ _ _ _ Hq) as [Hhead _].
      destruct q; simplify_eq/=. done.
    + by eapply IH.
Qed.

Section file.
Variables (n : nat) (mat : matrix) (cells : list Z).
Hypothesis Hcells :
  ∀ i j, i < n → j < n → cells !! (i * n + j) = Some (mget mat i j).

Lemma file_edge_iff a b : edge n mat a b ↔ file_edge n cells a b.
Proof.
  unfold edge, file_edge. split.
  - intros (Ha & Hb & He). repeat split; try done.
    exists (mget mat a b). split; [by apply Hcells|done].
  - intros (Ha & Hb & x & Hx & He). repeat split; try done.
    rewrite Hcells in Hx by done. by simplify_eq.
Qed.

Lemma file_walk_iff u w : walk n mat u w ↔ tc (file_edge n cells) u w.
Proof.
  split; apply (tc_congruence id); intros a b; apply file_edge_iff.
Qed.
End file.





(** ** The name of the output file *)

(** X15.  The block that [implementO] allocates for the name of the
    output file is exactly large enough: with [strlen] of the file name plus 5
    characters, [strcpy] and [strcat] stay inside it and leave "out-"
    followed by the file name and the closing 0, filling the block to its
    last character; one character less and a write would fall past the
    end. *)
Theorem output_name_fits name junk :
  0%Z ∉ name →
  (length junk = length name + 5 →
   output_name name junk = Some (out_prefix ++ name ++ [0%Z]))
  ∧ (length junk = length name + 4 → output_name name junk = None).
Proof.
  intros Hname. unfold output_name, strcpy, strcat, strlen.
  split; intros Hlen.
  - rewrite decide_True by (simpl; lia). simpl.
    rewrite length_drop, drop_drop, drop_ge by lia.
    rewrite decide_True by lia. done.
  - destruct (decide (length out_prefix < length junk)) as [Hfit|]; [|done].
    simpl in *. rewrite length_drop. rewrite decide_False by lia. done.
Qed.

Lemma output_name_fits_witness :
  output_name [97; 46; 116]%Z [1; 2; 3; 4; 5; 6; 7; 8]%Z
  = Some (out_prefix ++ [97; 46; 116]%Z ++ [0%Z]).
Proof.
  apply (proj1 (output_name_fits [97; 46; 116]%Z [1; 2; 3; 4; 5; 6; 7; 8]%Z
                  ltac:(by intros Hin; repeat
                          (apply elem_of_cons in Hin as [?|Hin]; [done|]);
                          apply elem_of_nil in Hin))).
  reflexivity.
Defined.

(** ** Path Finder: which path is found *)

Lemma trail_rtc m (vis : list Z) d s q :
  trail m d s q → (∀ x, x ∈ q → vis !! x = Some 0%Z) →
  rtc (hop m vis) s d.
Proof.
  induction 1 as [|s i q He Hq IH]; intros Hfree; [done|].
  destruct (trail_ends _ _ _ _ Hq) as [Hhead _].
  eapply rtc_l.
  - split; [done|]. apply Hfree. right.
    destruct q; simplify_eq/=. by left.
  - apply IH. intros x Hx. apply Hfree. by right.
Qed.

Lemma arrival_unique d k s q1 q2 st st' :
  arrival d k s q1 st st' → arrival d k s q2 st st' → q1 = q2.
Proof.
  intros (_ & _ & _ & H1 & _) (_ & _ & _ & H2 & _).
  rewrite H1 in H2. apply app_inv_head in H2. injection H2 as H2.
  by apply app_inv_head in H2.
Qed.

(** The loop, when it leaves with 1: the call that answered 1 was on a
    neighbour [i], no neighbour tried before [i] leads to the
    destination, and the path found from [i] is the first one. *)
Lemma scan_first n room m (vis : list Z) d k call s todo st st' :
  call_first n room m vis d k call →
  N st = n → cityMatrix st = m → visited st = vis →
  length (path st) = room →
  scan call s todo st = Some (true, st') →
  ∃ before i after q,
    todo = before ++ i :: after
    ∧ mget m s i ≠ 0%Z ∧ vis !! i = Some 0%Z
    ∧ arrival d k i q st st' ∧ first_path m vis d i q
    ∧ ∀ j, j ∈ before → hop m vis s j → ¬ rtc (hop m vis) j d.
Proof.
  intros Hcall. revert st.
  induction todo as [|i todo IH]; intros st HN HM HV HP Hscan;
    simpl in Hscan; [done|].
  assert (∀ st1,
    N st1 = n → cityMatrix st1 = m → visited st1 = vis →
    length (path st1) = room → stdout st1 = stdout st →
    take k (path st1) = take k (path st) →
    scan call s todo st1 = Some (true, st') →
    (¬ hop m vis s i ∨ ¬ rtc (hop m vis) i d) →
    ∃ before i0 after q,
      i :: todo = before ++ i0 :: after
      ∧ mget m s i0 ≠ 0%Z ∧ vis !! i0 = Some 0%Z
      ∧ arrival d k i0 q st st' ∧ first_path m vis d i0 q
      ∧ ∀ j, j ∈ before → hop m vis s j → ¬ rtc (hop m vis) j d) as Hnext.
  { intros st1 HN1 HM1 HV1 HP1 HO1 HT1 Hrest Hskip.
    destruct (IH st1 HN1 HM1 HV1 HP1 Hrest)
      as (before & i0 & after & q & -> & He & Hfree & Harr & Hfirst & Hbefore).
    exists (i :: before), i0, after, q.
    split; [done|]. split; [done|]. split; [done|]. split; [|split; [done|]].
    - apply (arrival_transport _ _ _ _ st1); [congruence..|done].
    - intros j [->|Hj]%elem_of_cons Hhop; [|by apply Hbefore].
      destruct Hskip as [Hskip|Hskip]; done. }
  destruct (visited st !! i) as [vi|] eqn:Hvi; simpl in Hscan; [|done].
  rewrite HV in Hvi.
  destruct (decide (vi = 0%Z)) as [->|Hvi0].
  - destruct (cell (cityMatrix st) s i) as [ed|] eqn:Hed; simpl in Hscan;
      [|done].
    assert (mget m s i = ed) as Hget by (unfold mget; by rewrite <- HM, Hed).
    destruct (decide (ed ≠ 0%Z)) as [Hne|Hz].
    + destruct (call i st) as [[r s1]|] eqn:Hc; simpl in Hscan; [|done].
      destruct (Hcall _ _ _ _ Hc HN HM HV HP Hvi) as (HN1 & Hout & Hzero & Hone).
      destruct Hout as (HM1 & HL1 & HT1 & Hr).
      destruct (decide (r ≠ 0%Z)) as [Hr1|Hr0].
      * simplify_eq. destruct Hr as [(? & _)|(-> & q & Hq)]; [done|].
        exists [], i, todo, q.
        split; [done|]. split; [done|]. split; [done|].
        split; [done|]. split; [by apply Hone|].
        intros j Hj. by apply elem_of_nil in Hj.
      * destruct Hr as [(-> & HV1 & HO1)|(-> & _)]; [|by destruct Hr0].
        apply (Hnext s1); try done; [congruence..|]. right. by apply Hzero.
    + apply (Hnext st); try done. left. intros [He _]. rewrite Hget in He.
      by apply Hz.
  - apply (Hnext st); try done. left. intros [_ Hv]. congruence.
Qed.

Lemma seq_split_after n before i after :
  seq 0 n = before ++ i :: after → ∀ j, j ∈ after → i < j.
Proof.
  intros Hseq j Hj. apply list_elem_of_lookup_1 in Hj as [k Hk].
  assert (seq 0 n !! length before = Some i) as Hi
    by (rewrite Hseq; by apply list_lookup_middle).
  assert (seq 0 n !! (length before + S k) = Some j) as Hj.
  { rewrite Hseq, lookup_app_r by lia.
    replace (length before + S k - length before) with (S k) by lia. done. }
  apply lookup_seq in Hi as [-> _]. apply lookup_seq in Hj as [-> _]. lia.
Qed.

Lemma lex_le_refl q : lex_le q q.
Proof. induction q; by constructor. Qed.

(** [findPath] finds the first path. *)
Lemma findPath_first n m d room fuel k (vis : list Z) :
  square n m → length vis = n → unvisited vis ≤ fuel →
  k + unvisited vis ≤ room →
  call_first n room m vis d k (λ i, findPath fuel i d k).
Proof.
  intros Hsq. revert k vis.
  induction fuel as [|fuel IH];
    intros k vis Hlen Hfuel Hroom s st r st' Hrun HN HM HV HP Hs; [done|].
  pose proof Hrun as Hout. apply findPath_outcome in Hout; [|by rewrite HV].
  pose proof (findPath_frame _ _ _ _ _ _ _ Hrun) as [HN' _].
  split; [congruence|]. split; [done|]. split.
  { intros ->.
    destruct (findPath_spec n m d room Hsq (S fuel) k vis Hlen Hfuel Hroom
                s st HN HM HV HP Hs)
      as (r & st2 & Hrun2 & _ & _ & _ & [(_ & _ & Hno)|(-> & _)]); [done|].
    rewrite Hrun in Hrun2. done. }
  intros -> q Hq q' Htrail' Hnd' Hfree'.
  pose proof (unvisited_mark _ _ Hs) as Hcount.
  apply lookup_lt_Some in Hs as Hlt.
  pose proof Hq as (_ & _ & _ & Hprint & _).
  simpl in Hrun. unfold store_visited, store_path in Hrun.
  rewrite HV in Hrun. rewrite decide_True in Hrun by done. simpl in Hrun.
  rewrite decide_True in Hrun by lia. simpl in Hrun.
  destruct (decide (s = d)) as [->|Hne].
  - assert (q = [d]) as ->.
    { simplify_eq. simpl in Hprint. rewrite take_S_insert in Hprint by lia.
      apply app_inv_head in Hprint. injection Hprint as Hprint.
      by apply app_inv_head in Hprint. }
    inversion Htrail' as [|? i q1 He Hq1]; subst; [apply lex_le_refl|].
    destruct (trail_ends _ _ _ _ Hq1) as [_ Hlast].
    apply NoDup_cons in Hnd' as [Hnot _]. contradict Hnot.
    apply last_Some in Hlast as [l' ->]. apply elem_of_app. right. by left.
  - match type of Hrun with
    | context [scan ?c ?a ?t ?w] =>
        destruct (scan c a t w) as [[found s1]|] eqn:Hscan
    end; simpl in Hrun; [|done].
    destruct found; simpl in Hrun;
      [|unfold store_visited in Hrun; case_decide; simplify_eq/=].
    injection Hrun as ->.
    apply (scan_first n room m (<[s:=1%Z]> vis) d (S k)) in Hscan;
      [|apply IH; [by rewrite length_insert|lia|lia]
       |simpl; try done..]; [|by rewrite length_insert].
    destruct Hscan
      as (before & i0 & after & q0 & Hseq & He0 & Hfree0 & Harr0 & Hfirst0
          & Hbefore).
    assert (q = s :: q0) as ->.
    { destruct Harr0 as (_ & _ & _ & Hprint0 & _). simpl in Hprint0.
      rewrite take_S_insert in Hprint0 by lia.
      rewrite Hprint0 in Hprint. apply app_inv_head in Hprint.
      injection Hprint as Hprint. rewrite <- app_assoc in Hprint.
      by apply app_inv_head in Hprint. }
    inversion Htrail' as [|? i1 q1 He1 Hq1]; subst; [done|].
    apply lex_le_eq.
    apply NoDup_cons in Hnd' as [Hs1 Hnd1].
    assert (∀ x, x ∈ q1 → <[s:=1%Z]> (visited st) !! x = Some 0%Z) as Hfree1.
    { intros x Hx. rewrite list_lookup_insert_ne by (by intros ->).
      apply Hfree'. by right. }
    destruct (trail_ends _ _ _ _ Hq1) as [Hhead1 _].
    destruct Harr0 as (Htrail0 & _).
    destruct (trail_ends _ _ _ _ Htrail0) as [Hhead0 _].
    destruct q1 as [|x1 q1]; [done|]. simpl in Hhead1. simplify_eq.
    destruct q0 as [|x0 q0]; [done|]. simpl in Hhead0. simplify_eq.
    assert (i1 ∈ seq 0 (N st)) as Hin.
    { apply elem_of_seq. specialize (Hfree1 i1 ltac:(by left)).
      apply lookup_lt_Some in Hfree1. rewrite length_insert in Hfree1. lia. }
    rewrite Hseq in Hin.
    apply elem_of_app in Hin as [Hin|[->|Hin]%elem_of_cons].
    + exfalso. apply (Hbefore i1 Hin).
      * split; [done|]. apply Hfree1. by left.
      * by eapply trail_rtc.
    + by apply Hfirst0.
    + apply lex_le_lt. by eapply seq_split_after.
Qed.

(** X16.  Which path is printed: among all paths from the source to the
    destination that follow non-zero cells and repeat no city, [findPath]
    prints the first in lexicographic order of the city numbers (the
    neighbours are tried in ascending order and a failed branch is fully
    undone), whether or not it is a shortest one. *)
Theorem findPath_prints_first_path fuel n m buf s d st :
  square n m → length buf = n → s < n → n ≤ fuel →
  findPath fuel s d 0 (search_start n m buf) = Some (1%Z, st) →
  ∃ q, stdout st = [YesPath q]
       ∧ ∀ q', trail m d s q' → NoDup q' → (∀ x, x ∈ q' → x < n) →
           lex_le q q'.
Proof.
  intros Hsq Hbuf Hs Hfuel Hrun.
  destruct (search_arrival _ _ _ _ _ _ _ Hs Hrun) as (q & Hout & _).
  exists q. split; [done|]. intros q' Htrail Hnd Hlt.
  destruct (findPath_first n m d n fuel 0 (replicate n 0%Z) Hsq)
    with (i := s) (st := search_start n m buf) (r := 1%Z) (st' := st)
    as (_ & Hres & _ & Hfirst); try done.
  { by rewrite length_replicate. }
  { by rewrite unvisited_replicate. }
  { rewrite unvisited_replicate. lia. }
  { by apply lookup_replicate_2. }
  destruct Hres as (_ & _ & _ & [(? & _)|(_ & q0 & Hq0)]); [done|].
  assert (q0 = q) as ->.
  { destruct Hq0 as (_ & _ & _ & Hprint & _). simpl in Hprint.
    rewrite Hout in Hprint. by injection Hprint as ->. }
  apply (Hfirst eq_refl q Hq0 q'); try done.
  intros x Hx. apply lookup_replicate_2. by apply Hlt.
Qed.

Lemma findPath_prints_first_path_witness :
  ∃ q, stdout (World 3 [[0;1;1];[0;0;1];[0;0;0]]%Z [1;1;1]%Z [0;1;2]
                 [YesPath [0;1;2]]) = [YesPath q]
       ∧ ∀ q', trail [[0;1;1];[0;0;1];[0;0;0]]%Z 2 0 q' → NoDup q' →
           (∀ x, x ∈ q' → x < 3) → lex_le q q'.
Proof.
  apply (findPath_prints_first_path 3 3 [[0;1;1];[0;0;1];[0;0;0]]%Z
           [9;9;9] 0 2); first [lia | reflexivity | concrete_matrix].
Defined.

(** ** Closure Engine: what each turn prints *)

(** X17.  The lines of a turn: turn [k + 1] of the [while] loop appends to
    the output exactly the pairs [(u, w)] with [u ≠ w] that are joined by
    a walk of at most [k + 2] edges but by none of at most [k + 1] edges,
    that is, the pairs at distance [k + 2].  So the listing goes by
    distance: the direct pairs first, then turn by turn one edge
    further. *)
Theorem closure_turn_prints_next_distance n m k :
  square n m →
  ∃ new,
    emitted (Nat.iter (S k) (pass n m) (closure_start n m))
    = emitted (Nat.iter k (pass n m) (closure_start n m)) ++ new
    ∧ ∀ u w, (u, w) ∈ new ↔
        u < n ∧ w < n ∧ u ≠ w
        ∧ (∃ j, 1 ≤ j ≤ k + 2 ∧ nsteps (edge n m) j u w)
        ∧ ¬ (∃ j, 1 ≤ j ≤ k + 1 ∧ nsteps (edge n m) j u w).
Proof.
  intros _. fold (rounds k n m). fold (rounds (S k) n m).
  exists (news n m (transitiveClosure (rounds k n m))).
  split; [rewrite rounds_S; apply pass_emitted, rounds_shaped|].
  intros u w. split.
  - intros Hin. pose proof Hin as (Hu & Hw & Hne & Hf & _)%news_sound.
    repeat split; try done.
    + replace (k + 2) with (S (S k)) by lia.
      apply (rounds_distance n m (S k)); try done.
      rewrite rounds_S, pass_truthy by (done || apply rounds_shaped).
      apply orb_true_iff. right. by apply bool_decide_eq_true.
    + replace (k + 1) with (S k) by lia.
      intros Hnear%(rounds_distance n m k); [congruence|done..].
  - intros (Hu & Hw & Hne & Hfar & Hnear).
    replace (k + 2) with (S (S k)) in Hfar by lia.
    replace (k + 1) with (S k) in Hnear by lia.
    apply (rounds_distance n m (S k)) in Hfar; [|done..].
    rewrite rounds_S, pass_truthy in Hfar by (done || apply rounds_shaped).
    apply orb_true_iff in Hfar as [Hold|Hin%bool_decide_eq_true]; [|done].
    contradict Hnear. by apply (rounds_distance n m k).
Qed.

Lemma closure_turn_prints_next_distance_witness :
  ∃ new,
    emitted (Nat.iter 1 (pass 3 chain3) (closure_start 3 chain3))
    = emitted (Nat.iter 0 (pass 3 chain3) (closure_start 3 chain3)) ++ new
    ∧ ∀ u w, (u, w) ∈ new ↔
        u < 3 ∧ w < 3 ∧ u ≠ w
        ∧ (∃ j, 1 ≤ j ≤ 0 + 2 ∧ nsteps (edge 3 chain3) j u w)
        ∧ ¬ (∃ j, 1 ≤ j ≤ 0 + 1 ∧ nsteps (edge 3 chain3) j u w).
Proof.
  apply (closure_turn_prints_next_distance 3 chain3 0). concrete_matrix.
Defined.
